(** * paps / metadata.py: a shallow embedding and its verified properties

    The Python module [metadata.py] holds the metadata model of the paps
    audio tools: timestamp arithmetic, the segment parser built on one
    regular expression, the [MetadataList] collection with its CSV
    persistence, the [VLCPlayer] context manager, and the search for
    audio files under a directory.

    Conventions of the embedding.
    - A Python [str] is a Rocq [string]; its characters are the code points
      below 256.  On that range the class [\d] of the [re] module is the ten
      decimal digits and [\s] is the set written out in [is_space].
    - A Python [int] is a [Z].
    - A function that may raise returns [res A]: [Ok a] or [Raise e].
    - A [dict] is a [gmap (option string) value]: its keys are strings, and
      [None], the key under which [csv.DictReader] files surplus cells;
      its values are [None], a [str] or a [list] of [str].
    - A function that changes its object and may raise returns the new
      state together with the exception, if any.
    - The console messages of [print_info] are not part of the state.
    - The files are the names of one directory, each a text file, a
      file whose bytes stop being text, or a directory; [open] for
      writing fails on the name of a directory, and reading fails with
      [OSError] on a name that is no file and with [UnicodeDecodeError]
      where the bytes stop being text.
    - A directory is the [tree] of what [os.walk] lists under it, and
      paths are joined as [posixpath.join] does. *)

From Stdlib Require Import ZArith NArith Ascii String List Lia Bool.
From stdpp Require Import base option list gmap strings.

Local Open Scope Z_scope.

(** ** Python values and exceptions *)

Module Py.

Inductive exn : Type :=
| ValueError (msg : string)
| KeyError (key : option string)
| AttributeError (msg : string)
| TypeError (msg : string)
| OSError (path : string)
| CsvError (msg : string)
| UnicodeDecodeError.

Inductive res (A : Type) : Type :=
| Ok (a : A)
| Raise (e : exn).
Arguments Ok {A} a.
Arguments Raise {A} e.

Global Instance exn_eq_dec : EqDecision exn.
Proof. solve_decision. Defined.

Global Instance res_eq_dec {A} `{EqDecision A} : EqDecision (res A).
Proof. solve_decision. Defined.

Definition bind {A B} (x : res A) (f : A -> res B) : res B :=
  match x with
  | Ok a => f a
  | Raise e => Raise e
  end.

Definition is_ok {A} (x : res A) : bool :=
  match x with Ok _ => true | Raise _ => false end.

(** [[f(x) for x in l]] for an [f] that may raise: the first exception
    aborts the comprehension. *)
Fixpoint mapM {A B} (f : A -> res B) (l : list A) : res (list B) :=
  match l with
  | [] => Ok []
  | x :: t =>
      bind (f x) (fun y => bind (mapM f t) (fun ys => Ok (y :: ys)))
  end.

(** Character codes. *)
Definition code (c : ascii) : N := N_of_ascii c.

Definition newline : ascii := "010"%char.
Definition carriage_return : ascii := "013"%char.
Definition dquote : ascii := "034"%char.

(** Truth value of a [str]: empty is false. *)
Definition str_truthy (s : string) : bool :=
  match s with EmptyString => false | String _ _ => true end.

(** [int(s)] on a run of decimal digits; anything else is a [ValueError].
    Only the two-digit groups of the segment pattern reach it. *)
Definition digit_value (c : ascii) : option Z :=
  let n := code c in
  if ((48 <=? n) && (n <=? 57))%N then Some (Z.of_N n - 48) else None.

Fixpoint int_digits (acc : Z) (s : string) : option Z :=
  match s with
  | EmptyString => Some acc
  | String c t =>
      match digit_value c with
      | Some d => int_digits (10 * acc + d) t
      | None => None
      end
  end.

Definition int (s : string) : res Z :=
  match s with
  | EmptyString => Raise (ValueError "invalid literal for int()")
  | _ =>
      match int_digits 0 s with
      | Some n => Ok n
      | None => Raise (ValueError "invalid literal for int()")
      end
  end.

(** [repr] of a [str] and of a list of them, which is also its [str()].
    The string is put between single quotes, or between double quotes
    when it holds a single quote and no double one; the enclosing quote
    and the backslash are escaped, tab, newline and carriage return are
    written [\t], [\n] and [\r], and any other character that is not
    printable is written [\xhh]. *)
Definition backslash : ascii := "092"%char.
Definition squote : ascii := "039"%char.
Definition tab : ascii := "009"%char.

Definition hex_digit (n : N) : ascii :=
  ascii_of_N (if (n <? 10)%N then 48 + n else 87 + n)%N.

Definition printable (c : ascii) : bool :=
  let n := code c in
  ((32 <=? n) && (n <? 127) || (161 <=? n) && negb (n =? 173))%N.

Fixpoint contains (c : ascii) (s : string) : bool :=
  match s with
  | EmptyString => false
  | String a t => Ascii.eqb a c || contains c t
  end.

Definition repr_char (quote c : ascii) : string :=
  if Ascii.eqb c quote || Ascii.eqb c backslash
  then String backslash (String c EmptyString)
  else if Ascii.eqb c tab then String backslash "t"
  else if Ascii.eqb c newline then String backslash "n"
  else if Ascii.eqb c carriage_return then String backslash "r"
  else if printable c then String c EmptyString
  else String backslash
         (String "x"
            (String (hex_digit (code c / 16)%N)
               (String (hex_digit (code c mod 16)%N) EmptyString))).

Fixpoint repr_chars (quote : ascii) (s : string) : string :=
  match s with
  | EmptyString => EmptyString
  | String c t => String.append (repr_char quote c) (repr_chars quote t)
  end.

Definition repr_str (s : string) : string :=
  let quote :=
    if contains squote s && negb (contains dquote s) then dquote
    else squote in
  String quote (String.append (repr_chars quote s) (String quote EmptyString)).

Definition repr_list (l : list string) : string :=
  String.append "[" (String.append (String.concat ", " (map repr_str l)) "]").

End Py.
Export Py.

Notation "'let*' x ':=' c1 'in' c2" := (bind c1 (fun x => c2))
  (at level 10, x name, c1 at level 100, c2 at level 200).

(** ** The [re] module, as far as [segment_seconds] uses it

    A backtracking matcher in continuation-passing style.  Alternatives are
    tried in the order of the [re] module: a greedy [?] or [*] first tries
    to consume, and gives the characters back when the rest of the pattern
    fails.  A capture made inside an alternative that is abandoned is
    dropped with it. *)

Module Re.

Inductive re : Type :=
| Eps                          (* nothing *)
| Chr (p : ascii -> bool)      (* one character of a class *)
| Seq (r1 r2 : re)             (* r1 r2 *)
| Opt (r : re)                 (* r? *)
| Star (p : ascii -> bool)     (* p* for a class p *)
| Group (n : nat) (r : re)     (* (r), the group number n *)
| Bol                          (* ^: the start of the string *)
| Eol.                         (* $: the end, or just before a last newline *)

Record mstate : Type := MState {
  pos : nat;
  rest : string;
  caps : list (nat * string)
}.

Definition set_cap (n : nat) (s : string) (st : mstate) : mstate :=
  MState (pos st) (rest st) ((n, s) :: caps st).

Fixpoint assoc (n : nat) (l : list (nat * string)) : option string :=
  match l with
  | [] => None
  | (k, v) :: t => if Nat.eqb k n then Some v else assoc n t
  end.

(** [p*] for a character class [p], greedy. *)
Fixpoint run_star (p : ascii -> bool) (i : nat) (s : string)
    (cs : list (nat * string)) (k : mstate -> option mstate)
    : option mstate :=
  match s with
  | String c t =>
      if p c then
        match run_star p (S i) t cs k with
        | Some m => Some m
        | None => k (MState i s cs)
        end
      else k (MState i s cs)
  | EmptyString => k (MState i s cs)
  end.

Fixpoint run (r : re) (st : mstate) (k : mstate -> option mstate)
    : option mstate :=
  match r with
  | Eps => k st
  | Chr p =>
      match rest st with
      | String c t =>
          if p c then k (MState (S (pos st)) t (caps st)) else None
      | EmptyString => None
      end
  | Seq r1 r2 => run r1 st (fun st1 => run r2 st1 k)
  | Opt r1 =>
      match run r1 st k with
      | Some m => Some m
      | None => k st
      end
  | Star p => run_star p (pos st) (rest st) (caps st) k
  | Group n r1 =>
      run r1 st (fun st1 =>
        k (set_cap n (substring 0 (pos st1 - pos st) (rest st)) st1))
  | Bol => if Nat.eqb (pos st) 0 then k st else None
  | Eol =>
      match rest st with
      | EmptyString => k st
      | String c EmptyString => if Ascii.eqb c newline then k st else None
      | _ => None
      end
  end.

(** [re.search]: the leftmost start position at which the pattern matches. *)
Fixpoint search_from (r : re) (i : nat) (s : string) : option mstate :=
  match run r (MState i s []) Some with
  | Some m => Some m
  | None =>
      match s with
      | String _ t => search_from r (S i) t
      | EmptyString => None
      end
  end.

Definition search (r : re) (s : string) : option mstate :=
  search_from r 0 s.

(** [match.groups()] for a pattern with [n] groups: [None] for a group
    that took no part in the match. *)
Definition groups (n : nat) (m : mstate) : list (option string) :=
  map (fun i => assoc i (caps m)) (seq 1 n).

End Re.

(** ** Timestamps and segments *)

(** Truth value of an optional [int] argument: [None] and [0] are false. *)
Definition int_truthy (x : option Z) : bool :=
  match x with
  | Some n => negb (n =? 0)
  | None => false
  end.

Definition int_get (x : option Z) : Z :=
  match x with Some n => n | None => 0 end.

Definition timestamp_seconds (seconds minutes hours : option Z) : Z :=
  let hours := if int_truthy hours then int_get hours * 3600 else 0 in
  let minutes := if int_truthy minutes then int_get minutes * 60 else 0 in
  let seconds := if int_truthy seconds then int_get seconds else 0 in
  hours + minutes + seconds.

(** The character classes of the pattern. *)
Definition is_digit (c : ascii) : bool :=
  ((48 <=? code c) && (code c <=? 57))%N.

Definition is_0_5 (c : ascii) : bool :=
  ((48 <=? code c) && (code c <=? 53))%N.

Definition is_colon (c : ascii) : bool := Ascii.eqb c ":".

Definition is_space (c : ascii) : bool :=
  let n := code c in
  (((9 <=? n) && (n <=? 13)) || ((28 <=? n) && (n <=? 32))
   || (n =? 133) || (n =? 160))%N.

Definition is_separator (c : ascii) : bool :=
  Ascii.eqb c "-" || Ascii.eqb c "|" || Ascii.eqb c "+" || Ascii.eqb c ";".

Import Re.

(** [(\d{2})?:?([0-5]\d):?([0-5]\d)], its groups numbered from [g]. *)
Definition timestamp_re (g : nat) : re :=
  Seq (Opt (Group g (Seq (Chr is_digit) (Chr is_digit))))
 (Seq (Opt (Chr is_colon))
 (Seq (Group (g + 1) (Seq (Chr is_0_5) (Chr is_digit)))
 (Seq (Opt (Chr is_colon))
      (Group (g + 2) (Seq (Chr is_0_5) (Chr is_digit)))))).

Definition pattern : re :=
  Seq Bol
 (Seq (timestamp_re 1)
 (Seq (Star is_space)
 (Seq (Chr is_separator)
 (Seq (Star is_space)
 (Seq (timestamp_re 4)
      Eol))))).

Definition format_message : string :=
  "Audio timestamp segment format is invalid: ".

Definition range_message : string :=
  "Start timestamp must precede end timestamp".

(** The two failures of [segment_seconds]; both are a [ValueError]. *)
Definition FormatError (s : string) : exn :=
  ValueError (format_message +:+ s).

Definition RangeError : exn := ValueError range_message.

(** [int(x) if x else 0] *)
Definition group_int (x : option string) : res Z :=
  match x with
  | Some s => if str_truthy s then int s else Ok 0
  | None => Ok 0
  end.

(** [segment_seconds], for an argument that is a [str]. *)
Definition segment_seconds (s : string) : res (Z * Z) :=
  match search pattern s with
  | None => Raise (FormatError s)
  | Some regex =>
      let* groups := mapM group_int (groups 6 regex) in
      match groups with
      | [start_hr; start_min; start_sec; end_hr; end_min; end_sec] =>
          let start :=
            timestamp_seconds (Some start_sec) (Some start_min)
                              (Some start_hr) in
          let end_ :=
            timestamp_seconds (Some end_sec) (Some end_min)
                              (Some end_hr) in
          if end_ <? start then Raise RangeError
          else Ok (start, end_)
      | _ => Raise (ValueError "not enough values to unpack")
      end
  end.

(** [try: segment_seconds(string) except (ValueError, TypeError): ...];
    [UnicodeDecodeError] is a subclass of [ValueError]. *)
Definition caught (e : exn) : bool :=
  match e with
  | ValueError _ | TypeError _ | UnicodeDecodeError => true
  | _ => false
  end.

Definition is_valid_segment (s : string) : res bool :=
  if negb (str_truthy s) then Ok true
  else
    match segment_seconds s with
    | Ok _ => Ok true
    | Raise e => if caught e then Ok false else Raise e
    end.

(** ** Dictionaries and the collection *)

Inductive value : Type :=
| VNone
| VStr (s : string)
| VList (l : list string).

Global Instance value_eq_dec : EqDecision value.
Proof. solve_decision. Defined.

Abbreviation dict := (gmap (option string) value).

(** An element of the list: a dictionary, or [None]. *)
Abbreviation MetadataList := (list (option (gmap (option string) value))).

Definition value_truthy (v : value) : bool :=
  match v with
  | VNone => false
  | VStr s => str_truthy s
  | VList l => match l with [] => false | _ :: _ => true end
  end.

Definition dict_truthy (d : dict) : bool := negb (bool_decide (d = ∅)).

Definition item_truthy (item : option dict) : bool :=
  match item with
  | Some d => dict_truthy d
  | None => false
  end.

(** [d[k]] *)
Definition getitem (d : dict) (k : option string) : res value :=
  match d !! k with
  | Some v => Ok v
  | None => Raise (KeyError k)
  end.

Definition KEYS : list string :=
  ["filepath"; "event_name"; "title"; "speakers"; "segments"].

(** [Metadata(data)]: a [dict] subclass, built as a copy of [data]. *)
Definition Metadata (data : dict) : dict := data.

(** [add_item] returns the grown list and the record it appended;
    [data] defaults to the empty dictionary. *)
Definition add_item (self : MetadataList) (data : dict)
    : MetadataList * dict :=
  let metadata := Metadata data in
  (self ++ [Some metadata], metadata).

(** [get_item]: the result [None] is the implicit return of the loop that
    found nothing. *)
Fixpoint get_item (self : MetadataList) (key : option string)
    (value_ : value) : res (option dict) :=
  match self with
  | [] => Ok None
  | item :: self' =>
      match item with
      | Some d =>
          if dict_truthy d then
            let* v := getitem d key in
            if bool_decide (v = value_) then Ok (Some d)
            else get_item self' key value_
          else get_item self' key value_
      | None => get_item self' key value_
      end
  end.

(** ** [str.join] and [str.split] *)

(** The characters of a string, as iterating over it yields them. *)
Fixpoint chars (s : string) : list string :=
  match s with
  | EmptyString => []
  | String c t => String c EmptyString :: chars t
  end.

Definition join (sep : string) (v : value) : res string :=
  match v with
  | VList l => Ok (String.concat sep l)
  | VStr s => Ok (String.concat sep (chars s))
  | VNone => Raise (TypeError "can only join an iterable")
  end.

(** [s.split(sep)] for a one-character separator: never empty. *)
Fixpoint split (sep : ascii) (s : string) : list string :=
  match s with
  | EmptyString => [EmptyString]
  | String c t =>
      if Ascii.eqb c sep then EmptyString :: split sep t
      else
        match split sep t with
        | h :: r => String c h :: r
        | [] => [String c EmptyString]
        end
  end.

Definition str_split (v : value) (sep : ascii) : res value :=
  match v with
  | VStr s => Ok (VList (split sep s))
  | VNone =>
      Raise (AttributeError "'NoneType' object has no attribute 'split'")
  | VList _ =>
      Raise (AttributeError "'list' object has no attribute 'split'")
  end.

(** ** Files *)

(** What a path names.  [File] is a file whose bytes are text in the
    encoding of the locale.  [Garbled] is a file whose bytes stop being
    text at some point: [head] is the text of the lines that are handed
    out before the decoder meets them. *)
Inductive node : Type :=
| File (content : string)
| Directory
| Garbled (head : string).

Global Instance node_eq_dec : EqDecision node.
Proof. solve_decision. Defined.

Abbreviation filesystem := (gmap string node).

(** [open(path, "r")]: the text that iterating over the file hands out,
    and the exception that ends the iteration, if one does.  Opening
    itself fails on a path that names no file; undecodable bytes are met
    only when the lines are read. *)
Definition open_read (fs : filesystem) (path : string)
    : res (string * option exn) :=
  match fs !! path with
  | Some (File content) => Ok (content, None)
  | Some (Garbled head) => Ok (head, Some UnicodeDecodeError)
  | _ => Raise (OSError path)
  end.

(** [open(path, "w")]: the file is created or emptied.  The state is one
    directory in which the program may create files, and a path is a name
    in it: of the ways [open] can fail, the one kept is that the name is
    that of a directory. *)
Definition open_write (fs : filesystem) (path : string) : res filesystem :=
  match fs !! path with
  | Some Directory => Raise (OSError path)
  | _ => Ok (<[path := File EmptyString]> fs)
  end.

(** Text read without [newline=''] has its line ends translated: [\r\n]
    and a lone [\r] both arrive as [\n]. *)
Fixpoint universal_newlines (s : string) : string :=
  match s with
  | EmptyString => EmptyString
  | String c t =>
      if Ascii.eqb c carriage_return then
        match t with
        | String c' t' =>
            if Ascii.eqb c' newline
            then String newline (universal_newlines t')
            else String newline (universal_newlines t)
        | EmptyString => String newline EmptyString
        end
      else String c (universal_newlines t)
  end.

(** ** The [csv] module: the excel dialect with [QUOTE_ALL] *)

Module Csv.

(** *** Writing *)

Fixpoint double_quotes (s : string) : string :=
  match s with
  | EmptyString => EmptyString
  | String c t =>
      if Ascii.eqb c dquote
      then String dquote (String dquote (double_quotes t))
      else String c (double_quotes t)
  end.

Definition quoted (s : string) : string :=
  String dquote (double_quotes s +:+ String dquote EmptyString).

Definition lineterminator : string :=
  String carriage_return (String newline EmptyString).

Definition writerow (cells : list string) : string :=
  String.concat "," (map quoted cells) +:+ lineterminator.

(** The text of a cell: [None] is written as nothing, a [str] as itself,
    anything else through [str()], which for a list is its [repr]. *)
Definition cell_text (v : value) : string :=
  match v with
  | VNone => EmptyString
  | VStr s => s
  | VList l => repr_list l
  end.

(** [DictWriter._dict_to_list] with [restval=''] and
    [extrasaction='raise']. *)
Definition dict_to_list (fieldnames : list string) (rowdict : dict)
    : res (list value) :=
  if bool_decide (dom rowdict ⊆ list_to_set (Some <$> fieldnames))
  then Ok (map (fun k => default (VStr EmptyString) (rowdict !! Some k))
               fieldnames)
  else Raise (ValueError "dict contains fields not in fieldnames").

(** [DictWriter.writerows]: each row is converted and written in turn, so
    a failure leaves the rows before it in the file. *)
Fixpoint writerows (fieldnames : list string) (rows : list dict)
    (out : string) : string * option exn :=
  match rows with
  | [] => (out, None)
  | row :: rows' =>
      match dict_to_list fieldnames row with
      | Ok cells =>
          writerows fieldnames rows' (out +:+ writerow (map cell_text cells))
      | Raise e => (out, Some e)
      end
  end.

(** [DictWriter.writeheader] *)
Definition writeheader (fieldnames : list string) : string :=
  writerow fieldnames.

(** *** Reading

    The parser of [_csv.c], for a dialect without escape character,
    not strict, with double quotes.  It is fed the characters of each line
    and then an end-of-line marker, here [None]. *)

Inductive pstate : Type :=
| START_RECORD
| START_FIELD
| IN_FIELD
| IN_QUOTED_FIELD
| QUOTE_IN_QUOTED_FIELD
| EAT_CRNL.

Global Instance pstate_eq_dec : EqDecision pstate.
Proof. solve_decision. Defined.

Record reader : Type := Reader {
  state : pstate;
  field : string;
  fields : list string
}.

Definition field_limit : N := 131072.

Definition parse_reset : reader := Reader START_RECORD EmptyString [].

Definition parse_add_char (r : reader) (c : ascii) : res reader :=
  if (field_limit <=? N.of_nat (String.length (field r)))%N
  then Raise (CsvError "field larger than field limit (131072)")
  else Ok (Reader (state r) (field r +:+ String c EmptyString) (fields r)).

Definition parse_save_field (r : reader) : reader :=
  Reader (state r) EmptyString (fields r ++ [field r]).

Definition set_state (s : pstate) (r : reader) : reader :=
  Reader s (field r) (fields r).

Definition is_eol (c : ascii) : bool :=
  Ascii.eqb c newline || Ascii.eqb c carriage_return.

Definition start_field (r : reader) (c : option ascii) : res reader :=
  match c with
  | None => Ok (set_state START_RECORD (parse_save_field r))
  | Some a =>
      if is_eol a then Ok (set_state EAT_CRNL (parse_save_field r))
      else if Ascii.eqb a dquote then Ok (set_state IN_QUOTED_FIELD r)
      else if Ascii.eqb a "," then Ok (parse_save_field r)
      else
        let* r' := parse_add_char r a in Ok (set_state IN_FIELD r')
  end.

Definition parse_process_char (r : reader) (c : option ascii) : res reader :=
  match state r with
  | START_RECORD =>
      match c with
      | None => Ok r
      | Some a =>
          if is_eol a then Ok (set_state EAT_CRNL r)
          else start_field (set_state START_FIELD r) c
      end
  | START_FIELD => start_field r c
  | IN_FIELD =>
      match c with
      | None => Ok (set_state START_RECORD (parse_save_field r))
      | Some a =>
          if is_eol a then Ok (set_state EAT_CRNL (parse_save_field r))
          else if Ascii.eqb a "," then
            Ok (set_state START_FIELD (parse_save_field r))
          else parse_add_char r a
      end
  | IN_QUOTED_FIELD =>
      match c with
      | None => Ok r
      | Some a =>
          if Ascii.eqb a dquote then Ok (set_state QUOTE_IN_QUOTED_FIELD r)
          else parse_add_char r a
      end
  | QUOTE_IN_QUOTED_FIELD =>
      match c with
      | None => Ok (set_state START_RECORD (parse_save_field r))
      | Some a =>
          if Ascii.eqb a dquote then
            let* r' := parse_add_char r a in
            Ok (set_state IN_QUOTED_FIELD r')
          else if Ascii.eqb a "," then
            Ok (set_state START_FIELD (parse_save_field r))
          else if is_eol a then
            Ok (set_state EAT_CRNL (parse_save_field r))
          else
            let* r' := parse_add_char r a in Ok (set_state IN_FIELD r')
      end
  | EAT_CRNL =>
      match c with
      | None => Ok (set_state START_RECORD r)
      | Some a =>
          if is_eol a then Ok r
          else Raise (CsvError "new-line character seen in unquoted field")
      end
  end.

(** What the reader hands out when the input ends inside a record. *)
Definition end_of_data (r : reader) : list (list string) :=
  if bool_decide (state r = IN_QUOTED_FIELD) || str_truthy (field r)
  then [fields (parse_save_field r)]
  else [].

Definition emit (row : list string) (x : list (list string) * option exn)
    : list (list string) * option exn :=
  (row :: fst x, snd x).

(** The records of a text, in order, and the error that ends the
    iteration early, if any.  A line is the text up to and including a
    newline; the parser sees its characters and then the marker, and a
    record is complete when the marker leaves the parser at
    [START_RECORD].  [midline] tells that characters of a line not yet
    ended have been fed. *)
Fixpoint records (r : reader) (midline : bool) (s : string)
    : list (list string) * option exn :=
  match s with
  | EmptyString =>
      if midline then
        match parse_process_char r None with
        | Raise e => ([], Some e)
        | Ok r' =>
            if bool_decide (state r' = START_RECORD)
            then ([fields r'], None)
            else (end_of_data r', None)
        end
      else (end_of_data r, None)
  | String c t =>
      match parse_process_char r (Some c) with
      | Raise e => ([], Some e)
      | Ok r1 =>
          if Ascii.eqb c newline then
            match parse_process_char r1 None with
            | Raise e => ([], Some e)
            | Ok r2 =>
                if bool_decide (state r2 = START_RECORD)
                then emit (fields r2) (records parse_reset false t)
                else records r2 false t
            end
          else records r1 true t
      end
  end.

Definition reader_rows (text : string) : list (list string) * option exn :=
  records parse_reset false text.

(** The same iteration over a text that breaks off: when the lines run
    out, asking for the next one raises [fault] instead of ending the
    input, so the exception goes on and a record in progress is never
    handed out. *)
Fixpoint records_cut (fault : exn) (r : reader) (s : string)
    : list (list string) * option exn :=
  match s with
  | EmptyString => ([], Some fault)
  | String c t =>
      match parse_process_char r (Some c) with
      | Raise e => ([], Some e)
      | Ok r1 =>
          if Ascii.eqb c newline then
            match parse_process_char r1 None with
            | Raise e => ([], Some e)
            | Ok r2 =>
                if bool_decide (state r2 = START_RECORD)
                then emit (fields r2) (records_cut fault parse_reset t)
                else records_cut fault r2 t
            end
          else records_cut fault r1 t
      end
  end.

(** The rows of what a file hands out: of its whole text, or of its
    lines up to the fault that ends them. *)
Definition rows_of (text : string) (fault : option exn)
    : list (list string) * option exn :=
  match fault with
  | None => reader_rows text
  | Some e => records_cut e parse_reset text
  end.

(** [DictReader]: one row as a dictionary over the field names.  Cells
    beyond the names go under the key [None] as a list; names beyond the
    cells get the value [None]. *)
Fixpoint row_dict (fieldnames : list string) (row : list string) (d : dict)
    : dict :=
  match fieldnames with
  | [] =>
      match row with
      | [] => d
      | _ :: _ => <[None := VList row]> d
      end
  | k :: ks =>
      match row with
      | [] => row_dict ks [] (<[Some k := VNone]> d)
      | v :: vs => row_dict ks vs (<[Some k := VStr v]> d)
      end
  end.

(** The rows a [DictReader] yields: the first record is the header, and
    blank records after it are skipped. *)
Definition dict_rows (rows : list (list string)) : list dict :=
  match rows with
  | [] => []
  | fieldnames :: data =>
      map (fun row => row_dict fieldnames row ∅)
          (filter (fun row => row <> []) data)
  end.

End Csv.

(** ** Persistence of the collection *)

Definition csv_row (metadata : dict) : res dict :=
  let* filepath := getitem metadata (Some "filepath") in
  let* event_name := getitem metadata (Some "event_name") in
  let* title := getitem metadata (Some "title") in
  let row : dict :=
    <[Some "title" := title]>
      (<[Some "event_name" := event_name]>
         (<[Some "filepath" := filepath]> ∅)) in
  let* speakers := getitem metadata (Some "speakers") in
  let* row :=
    (if value_truthy speakers
     then let* cell := join ";" speakers in
          Ok (<[Some "speakers" := VStr cell]> row)
     else Ok row) in
  let* segments := getitem metadata (Some "segments") in
  if value_truthy segments
  then let* cell := join ";" segments in
       Ok (<[Some "segments" := VStr cell]> row)
  else Ok row.

Fixpoint build_rows (self : MetadataList) : res (list dict) :=
  match self with
  | [] => Ok []
  | metadata :: self' =>
      if item_truthy metadata then
        let* row := csv_row (default ∅ metadata) in
        let* rows := build_rows self' in
        Ok (row :: rows)
      else build_rows self'
  end.

(** [write_to_csv]: the rows are built first; then the file is opened,
    which empties it, and the header and the rows are written. *)
Definition write_to_csv (self : MetadataList) (fs : filesystem)
    (output_csv : string) : filesystem * option exn :=
  match build_rows self with
  | Raise e => (fs, Some e)
  | Ok rows =>
      match open_write fs output_csv with
      | Raise e => (fs, Some e)
      | Ok _ =>
          let out := Csv.writerows KEYS rows (Csv.writeheader KEYS) in
          (<[output_csv := File (fst out)]> fs, snd out)
      end
  end.

(** The body of the reading loop, for one row of the [DictReader]. *)
Definition load_row (row : dict) : res dict :=
  let* speakers := getitem row (Some "speakers") in
  let* speakers := str_split speakers ";" in
  let row := <[Some "speakers" := speakers]> row in
  let* segments := getitem row (Some "segments") in
  let* segments := str_split segments ";" in
  Ok (<[Some "segments" := segments]> row).

Fixpoint load_rows (self : MetadataList) (rows : list dict)
    (err : option exn) : MetadataList * option exn :=
  match rows with
  | [] => (self, err)
  | row :: rows' =>
      match load_row row with
      | Ok row' => load_rows (fst (add_item self row')) rows' err
      | Raise e => (self, Some e)
      end
  end.

Definition read_from_csv (self : MetadataList) (fs : filesystem)
    (input_csv : string) : MetadataList * option exn :=
  match open_read fs input_csv with
  | Raise e => (self, Some e)
  | Ok (text, fault) =>
      let rows := Csv.rows_of (universal_newlines text) fault in
      load_rows self (Csv.dict_rows (fst rows)) (snd rows)
  end.

(** ** The collection, read declaratively *)

(** The records that count for lookup and for writing: the dictionaries
    of the list that are not empty, in order. *)
Fixpoint records_of (self : MetadataList) : list dict :=
  match self with
  | [] => []
  | item :: self' =>
      if item_truthy item then default ∅ item :: records_of self'
      else records_of self'
  end.

(** A record that holds each of the five fields. *)
Definition complete (d : dict) : Prop :=
  Forall (fun k => is_Some (d !! Some k)) KEYS.

Global Instance complete_dec (d : dict) : Decision (complete d).
Proof. unfold complete. apply _. Defined.

(** The cell of a multi-valued field: its items joined with [;], and
    nothing for an empty one. *)
Definition joined_cell (v : value) : string :=
  match v with
  | VList l => String.concat ";" l
  | VStr s => String.concat ";" (chars s)
  | VNone => EmptyString
  end.

Definition field_of (d : dict) (k : string) : value :=
  default VNone (d !! Some k).

Definition record_cells (d : dict) : list string :=
  [Csv.cell_text (field_of d "filepath");
   Csv.cell_text (field_of d "event_name");
   Csv.cell_text (field_of d "title");
   joined_cell (field_of d "speakers");
   joined_cell (field_of d "segments")].

Fixpoint concat_lines (l : list string) : string :=
  match l with
  | [] => EmptyString
  | x :: t => x +:+ concat_lines t
  end.

(** The text of the file for a list of records. *)
Definition csv_text (records : list dict) : string :=
  Csv.writerow KEYS +:+
  concat_lines (map (fun d => Csv.writerow (record_cells d)) records).

(** A record and a collection to try things on: the record of the
    serialization scenario, met twice, behind [None] and an empty
    record. *)
Definition sample_record : dict :=
  <[Some "filepath" := VStr "t.mp3"]>
    (<[Some "event_name" := VStr "E"]>
       (<[Some "title" := VStr "T"]>
          (<[Some "speakers" := VList ["A"; "B"]]>
             (<[Some "segments" := VList ["00:10-00:20"]]> ∅)))).

Definition sample_list : MetadataList :=
  [None; Some ∅; Some sample_record;
   Some (<[Some "title" := VStr "again"]> sample_record)].

(** The row of the serialization scenario, character by character. *)
Definition in_quotes (s : string) : string :=
  String dquote (s +:+ String dquote EmptyString).

Definition scenario_header : string :=
  in_quotes "filepath" +:+ "," +:+ in_quotes "event_name" +:+ "," +:+
  in_quotes "title" +:+ "," +:+ in_quotes "speakers" +:+ "," +:+
  in_quotes "segments" +:+ Csv.lineterminator.

Definition scenario_row : string :=
  in_quotes "t.mp3" +:+ "," +:+ in_quotes "E" +:+ "," +:+
  in_quotes "T" +:+ "," +:+ in_quotes "A;B" +:+ "," +:+
  in_quotes "00:10-00:20" +:+ Csv.lineterminator.

(** ** [VLCPlayer] and the [with] statement

    The calls the player makes on the system are logged in order.  What
    the system answers to [open] and to [Popen] is given by [answers];
    the body of the [with] statement makes steps of its own and ends
    normally or with an exception. *)

Module Player.

Inductive event : Type :=
| SinkOpened
| Spawned (path : string)
| TerminateSent
| SinkClosed
| BodyStep (label : string).

Global Instance event_eq_dec : EqDecision event.
Proof. solve_decision. Defined.

Record answers : Type := Answers {
  devnull_opens : bool;
  vlc_spawns : bool
}.

(** The object: its path, and whether [devnull] and [vlc] are set. *)
Record VLCPlayer : Type := Build {
  path : string;
  devnull : bool;
  vlc : bool
}.

Definition init (path : string) : VLCPlayer := Build path false false.

Definition enter (sys : answers) (self : VLCPlayer) (log : list event)
    : VLCPlayer * list event * option exn :=
  if devnull_opens sys then
    let self := Build (path self) true (vlc self) in
    let log := log ++ [SinkOpened] in
    if vlc_spawns sys then
      (Build (path self) (devnull self) true,
       log ++ [Spawned (path self)], None)
    else (self, log, Some (OSError "vlc"))
  else (self, log, Some (OSError "/dev/null")).

Definition exit (self : VLCPlayer) (log : list event)
    : list event * option exn :=
  if vlc self then
    let log := log ++ [TerminateSent] in
    if devnull self then (log ++ [SinkClosed], None)
    else (log, Some (AttributeError "devnull"))
  else (log, Some (AttributeError "vlc")).

(** [with VLCPlayer(path) as p: body].  When [__enter__] raises, neither
    the body nor [__exit__] runs; otherwise [__exit__] runs after the
    body however the body ended, and as it returns nothing the exception
    of the body goes on. *)
Definition with_player (sys : answers) (path : string)
    (steps : list string) (outcome : option exn)
    : list event * option exn :=
  match enter sys (init path) [] with
  | (_, log, Some e) => (log, Some e)
  | (self, log, None) =>
      match exit self (log ++ map BodyStep steps) with
      | (log', Some e) => (log', Some e)
      | (log', None) => (log', outcome)
      end
  end.

Definition count (e : event) (log : list event) : nat :=
  List.count_occ event_eq_dec log e.

End Player.

(** ** What a pattern matches

    The declarative reading of a pattern: [denote r st st'] holds when [r]
    can take the matcher from [st] to [st'].  The matcher above is one
    strategy for finding such a step; the two are related below. *)

Fixpoint all_chars (p : ascii -> bool) (s : string) : bool :=
  match s with
  | EmptyString => true
  | String c t => p c && all_chars p t
  end.

Fixpoint denote (r : re) (st st' : mstate) : Prop :=
  match r with
  | Eps => st' = st
  | Chr p =>
      exists c, rest st = String c (rest st') /\ p c = true /\
                pos st' = S (pos st) /\ caps st' = caps st
  | Seq r1 r2 => exists mid, denote r1 st mid /\ denote r2 mid st'
  | Opt r1 => denote r1 st st' \/ st' = st
  | Star p =>
      exists w, all_chars p w = true /\ rest st = w +:+ rest st' /\
                pos st' = (pos st + String.length w)%nat /\
                caps st' = caps st
  | Group n r1 =>
      exists st1, denote r1 st st1 /\
        st' = set_cap n (substring 0 (pos st1 - pos st) (rest st)) st1
  | Bol => pos st = 0%nat /\ st' = st
  | Eol =>
      (rest st = EmptyString \/ rest st = String newline EmptyString) /\
      st' = st
  end.

(** ** The segment grammar, written out

    The strings the pattern accepts, as a plain concatenation: two
    timestamps around a separator.  In a timestamp the hours and each colon
    may be left out independently of each other, and one newline may follow
    the end timestamp (the [$] of the [re] module). *)

Definition two_chars (p q : ascii -> bool) (x : string) : Prop :=
  exists a b, x = String a (String b EmptyString) /\
              p a = true /\ q b = true.

Definition hours_field (h : option string) : Prop :=
  match h with
  | Some x => two_chars is_digit is_digit x
  | None => True
  end.

Definition sixty_field (x : string) : Prop := two_chars is_0_5 is_digit x.

Definition opt_text (h : option string) : string :=
  match h with Some x => x | None => EmptyString end.

Definition optional (c : ascii) (x : string) : Prop :=
  x = EmptyString \/ x = String c EmptyString.

Definition timestamp_text (t : string) (hr : option string)
    (mi se : string) : Prop :=
  exists c1 c2,
    t = opt_text hr +:+ c1 +:+ mi +:+ c2 +:+ se /\
    hours_field hr /\ optional ":" c1 /\ sixty_field mi /\
    optional ":" c2 /\ sixty_field se.

Definition segment_text (s : string) (g : list (option string)) : Prop :=
  exists t1 w1 sep w2 t2 nl h1 m1 s1 h2 m2 s2,
    s = t1 +:+ w1 +:+ String sep (w2 +:+ t2 +:+ nl) /\
    timestamp_text t1 h1 m1 s1 /\
    all_chars is_space w1 = true /\
    is_separator sep = true /\
    all_chars is_space w2 = true /\
    timestamp_text t2 h2 m2 s2 /\
    optional newline nl /\
    g = [h1; Some m1; Some s1; h2; Some m2; Some s2].

(** The number a group stands for, and the seconds of a match. *)
Definition field_value (x : option string) : Z :=
  match x with
  | Some s => match int_digits 0 s with Some n => n | None => 0 end
  | None => 0
  end.

Definition segment_value (g : list (option string)) : Z * Z :=
  match g with
  | [h1; m1; s1; h2; m2; s2] =>
      (field_value h1 * 3600 + field_value m1 * 60 + field_value s1,
       field_value h2 * 3600 + field_value m2 * 60 + field_value s2)
  | _ => (0, 0)
  end.

(** The grammar as the specification words it, [[[HH]:]MM:SS]: the colon
    between minutes and seconds is part of every timestamp, and nothing
    follows the end timestamp. *)
Definition claimed_timestamp (t : string) : Prop :=
  exists pre mi se,
    t = pre +:+ mi +:+ String ":" se /\
    (pre = EmptyString \/ pre = String ":" EmptyString \/
     exists hh, two_chars is_digit is_digit hh /\
                pre = hh +:+ String ":" EmptyString) /\
    sixty_field mi /\ sixty_field se.

Definition claimed_segment (s : string) : Prop :=
  exists t1 w1 sep w2 t2,
    s = t1 +:+ w1 +:+ String sep (w2 +:+ t2) /\
    claimed_timestamp t1 /\
    all_chars is_space w1 = true /\
    is_separator sep = true /\
    all_chars is_space w2 = true /\
    claimed_timestamp t2.

(** Whether the last character of a string is in a class. *)
Fixpoint last_is (p : ascii -> bool) (s : string) : bool :=
  match s with
  | EmptyString => false
  | String c EmptyString => p c
  | String _ t => last_is p t
  end.

(** The captures a timestamp leaves behind, newest first. *)
Definition hours_cap (g : nat) (h : option string) : list (nat * string) :=
  match h with Some x => [(g, x)] | None => [] end.

Definition timestamp_caps (g : nat) (h : option string) (m s : string)
    : list (nat * string) :=
  ((g + 2)%nat, s) :: ((g + 1)%nat, m) :: hours_cap g h.

(** What may follow a timestamp: the end of the text, or a character that
    is neither a digit nor a colon. *)
Definition no_mark_head (r : string) : Prop :=
  match r with
  | EmptyString => True
  | String c _ => is_digit c = false /\ is_colon c = false
  end.

(** The canonical rendering [HH:MM:SS-HH:MM:SS] of a pair of second
    counts, each field zero-padded to two digits. *)
Definition digit_char (d : Z) : ascii := ascii_of_N (Z.to_N (48 + d)).

Definition two_digit (n : Z) : string :=
  String (digit_char (n / 10)) (String (digit_char (n mod 10)) EmptyString).

Definition render_timestamp (t : Z) : string :=
  two_digit (t / 3600) +:+ String ":" (two_digit (t / 60 mod 60))
    +:+ String ":" (two_digit (t mod 60)).

Definition render_segment (start end_ : Z) : string :=
  render_timestamp start +:+ String "-" (render_timestamp end_).

(** ** Records with their five fields, for the round trip *)

Record entry : Type := Entry {
  f_filepath : string;
  f_event_name : string;
  f_title : string;
  f_speakers : list string;
  f_segments : list string
}.

Definition to_dict (r : entry) : dict :=
  <[Some "filepath" := VStr (f_filepath r)]>
    (<[Some "event_name" := VStr (f_event_name r)]>
       (<[Some "title" := VStr (f_title r)]>
          (<[Some "speakers" := VList (f_speakers r)]>
             (<[Some "segments" := VList (f_segments r)]> ∅)))).

(** What an ordered sequence is after it was written and read back. *)
Definition reread (l : list string) : list string :=
  match l with
  | [] => [EmptyString]
  | _ :: _ => l
  end.

Definition after_round_trip (r : entry) : entry :=
  Entry (f_filepath r) (f_event_name r) (f_title r)
         (reread (f_speakers r)) (reread (f_segments r)).

Definition free_of (c : ascii) (s : string) : bool :=
  all_chars (fun x => negb (Ascii.eqb x c)) s.

Definition within_limit (s : string) : bool :=
  (N.of_nat (String.length s) <=? Csv.field_limit)%N.

(** A cell the file can carry: without carriage return, and no longer
    than the field limit of the reader. *)
Definition cell_ok (s : string) : bool :=
  free_of carriage_return s && within_limit s.

(** A record the file can carry: its cells are, and no speaker or segment
    holds the [;] that joins them. *)
Definition storable (r : entry) : bool :=
  cell_ok (f_filepath r) && cell_ok (f_event_name r) &&
  cell_ok (f_title r) &&
  cell_ok (String.concat ";" (f_speakers r)) &&
  cell_ok (String.concat ";" (f_segments r)) &&
  forallb (free_of ";") (f_speakers r) &&
  forallb (free_of ";") (f_segments r).

(** A row of the file as the reader receives it: the line ends in a bare
    newline. *)
Definition line_read (cells : list string) : string :=
  String.concat "," (map Csv.quoted cells) +:+ String newline EmptyString.

(** Entries and sources to try the persistence on. *)
Definition sample_entries : list entry :=
  [Entry "t.mp3" "E" "T" ["A"; "B"] ["00:10-00:20"];
   Entry "u.mp3" "E" "U, part 2" [] ["00:10-05:00"; "10:00-12:30"];
   Entry "v.mp3" EmptyString (String dquote "V") ["C"] []].

Definition sample_collection : MetadataList :=
  None :: Some ∅ :: map (fun r => Some (to_dict r)) sample_entries.

(** A speaker whose name holds the joining character. *)
Definition joint_entry : entry :=
  Entry "t.mp3" "E" "T" ["A;B"] ["00:10-00:20"].

Definition split_entry : entry :=
  Entry "t.mp3" "E" "T" ["A"; "B"] ["00:10-00:20"].



(** The ways of writing a timestamp that the pattern accepts: with or
    without the hours, and with or without each colon. *)
Record form : Type := Form {
  with_hours : bool;
  hours_colon : bool;
  minutes_colon : bool
}.

Definition mark (b : bool) : string :=
  if b then String ":" EmptyString else EmptyString.

Definition render_as (f : form) (t : Z) : string :=
  (if with_hours f then two_digit (t / 3600) else EmptyString)
    +:+ mark (hours_colon f) +:+ two_digit (t / 60 mod 60)
    +:+ mark (minutes_colon f) +:+ two_digit (t mod 60).

(** A count of seconds can be written in a form when it has no hours to
    show, or the form shows them. *)
Definition fits (f : form) (t : Z) : Prop :=
  0 <= t < 360000 /\ (with_hours f = false -> t < 3600).

(** ** The tag view of a record *)

(** [Metadata.toId3] *)
Definition toId3 (self : dict) : res dict :=
  let* title := getitem self (Some "title") in
  let id3 : dict := <[Some "title" := title]> ∅ in
  let* speakers := getitem self (Some "speakers") in
  let* artist := join ", " speakers in
  let id3 : dict := <[Some "artist" := VStr artist]> id3 in
  let* album := getitem self (Some "event_name") in
  Ok (<[Some "album" := album]> id3).


(** What [read_from_csv] makes of a multi-valued cell: a list that is
    not empty and whose items hold no [;]. *)
Definition split_cell (v : option value) : Prop :=
  exists l, v = Some (VList l) /\ l <> [] /\
            forallb (free_of ";") l = true.

(** ** The round trip of any record *)

(** What a cell is once the file was read: its line ends translated. *)
Definition cell_read (s : string) : string := universal_newlines s.

(** What a record is once written and read back, with no condition on
    what its fields hold: each sequence is joined, read as a cell, and
    split again. *)
Definition read_back (r : entry) : entry :=
  Entry (cell_read (f_filepath r)) (cell_read (f_event_name r))
        (cell_read (f_title r))
        (split ";" (cell_read (String.concat ";" (f_speakers r))))
        (split ";" (cell_read (String.concat ";" (f_segments r)))).

(** A record whose cells are within the field limit of the reader. *)
Definition readable (r : entry) : bool :=
  within_limit (f_filepath r) && within_limit (f_event_name r) &&
  within_limit (f_title r) &&
  within_limit (String.concat ";" (f_speakers r)) &&
  within_limit (String.concat ";" (f_segments r)).

(** The characters a timestamp is written with. *)
Definition is_plain (c : ascii) : bool := is_digit c || is_colon c.

(** A record with one speaker and one segment, and one whose title and
    speakers hold line ends and the joining character. *)
Definition entry_of_segment (seg : string) : entry :=
  Entry "t.mp3" "E" "T" ["A"] [seg].

Definition awkward_entry : entry :=
  Entry "t.mp3" "E"
        ("T" +:+ String carriage_return (String newline "2"))
        ["A;B"; "C" +:+ String carriage_return "D"] [].

(** ** Finding the audio files

    [os.walk] sees a directory as the names of its files and of its
    directories, in the order [scandir] gives them.  [Closed] stands for
    what it does not enter: a symbolic link to a directory, a directory
    that cannot be listed, and, for the path it is given, anything that
    is not a directory. *)

#[warnings="-register-all"]
Inductive tree : Type :=
| Tree (files : list string) (dirs : list (string * tree))
| Closed.

Module Os.

(** [str.endswith] *)
Fixpoint endswith (s suffix : string) : bool :=
  String.eqb s suffix ||
  match s with
  | String _ t => endswith t suffix
  | EmptyString => false
  end.

Definition startswith (s : string) (c : ascii) : bool :=
  match s with
  | String a _ => Ascii.eqb a c
  | EmptyString => false
  end.

(** [posixpath.join] of two components. *)
Definition path_join (a p : string) : string :=
  if startswith p "/" then p
  else if negb (str_truthy a) || endswith a "/" then a +:+ p
  else a +:+ "/" +:+ p.

(** [os.walk(top)], top down and without following links: the triple of
    the directory, then the walk of each of its directories in turn. *)
Fixpoint walk (t : tree) (top : string) {struct t}
    : list (string * list string * list string) :=
  match t with
  | Tree files dirs =>
      (top, map fst dirs, files) ::
      (fix walk_dirs (ds : list (string * tree)) :=
         match ds with
         | [] => []
         | (name, sub) :: ds' =>
             walk sub (path_join top name) ++ walk_dirs ds'
         end) dirs
  | Closed => []
  end.

End Os.

(** [str.lower] on the code points below 256: the letters [A] to [Z] and
    the capital letters from 192 to 222, the sign 215 apart. *)
Definition lower_char (c : ascii) : ascii :=
  let n := code c in
  if ((65 <=? n) && (n <=? 90) ||
      (192 <=? n) && (n <=? 222) && negb (n =? 215))%N
  then ascii_of_N (n + 32)
  else c.

Fixpoint lower (s : string) : string :=
  match s with
  | EmptyString => EmptyString
  | String c t => String (lower_char c) (lower t)
  end.

Definition VALID_AUDIO : list string := [".mp3"].

(** The test of the [filter]: [endswith] with a tuple holds when it does
    for one of its items. *)
Definition valid_audio (x : string) : bool :=
  existsb (Os.endswith (lower x)) VALID_AUDIO.

(** The list built by the two loops, before it is filtered. *)
Definition audio_files (root : tree) (path : string) : list string :=
  flat_map (fun '(root, _, files) => map (Os.path_join root) files)
           (Os.walk root path).

Definition list_audio_files (root : tree) (path : string) : list string :=
  List.filter valid_audio (audio_files root path).

(** Where a file is: in the directory walked, or in one of the
    directories entered from it. *)
Inductive located : tree -> string -> string -> string -> Prop :=
| located_here files dirs top name :
    In name files -> located (Tree files dirs) top top name
| located_below files dirs top d sub dir name :
    In (d, sub) dirs -> located sub (Os.path_join top d) dir name ->
    located (Tree files dirs) top dir name.

(** The error of the reader on a field beyond its limit. *)
Definition LimitError : exn :=
  CsvError "field larger than field limit (131072)".

(** A text of [n] times the letter [a], and a record whose title is one
    character beyond the field limit. *)
Fixpoint letters (n : nat) : string :=
  match n with
  | O => EmptyString
  | S n' => String "a" (letters n')
  end.

Definition long_entry : entry :=
  Entry "t.mp3" "E" (letters (N.to_nat (Csv.field_limit + 1))) ["A"] [].

(** The tags of a record with its five fields. *)
Definition tags_of (r : entry) : dict :=
  <[Some "album" := VStr (f_event_name r)]>
    (<[Some "artist" := VStr (String.concat ", " (f_speakers r))]>
       (<[Some "title" := VStr (f_title r)]> ∅)).

(** The first of the five fields, in the order in which [write_to_csv]
    asks for them, that a record lacks. *)
Definition first_missing (d : dict) : option string :=
  List.find (fun k => bool_decide (d !! Some k = None)) KEYS.

(** * Verified properties *)

Section Matcher.

Lemma mstate_eta st : MState (pos st) (rest st) (caps st) = st.
Proof. by destruct st. Qed.

Lemma run_star_sound p s : forall i cs k x,
  run_star p i s cs k = Some x ->
  exists w r, s = w +:+ r /\ all_chars p w = true /\
              k (MState (i + String.length w) r cs) = Some x.
Proof.
  induction s as [|c t IH]; intros i cs k x H; simpl in H.
  - exists EmptyString, EmptyString. rewrite Nat.add_0_r. auto.
  - destruct (p c) eqn:Hp.
    + destruct (run_star p (S i) t cs k) eqn:Hr.
      * injection H as ->. apply IH in Hr as (w & r & -> & Hw & Hk).
        exists (String c w), r. simpl. rewrite Hp, Hw.
        replace (i + S (String.length w))%nat
          with (S i + String.length w)%nat by lia. auto.
      * exists EmptyString, (String c t). rewrite Nat.add_0_r. auto.
    + exists EmptyString, (String c t). rewrite Nat.add_0_r. auto.
Qed.

Lemma run_star_complete p w : forall r i cs k x,
  all_chars p w = true ->
  k (MState (i + String.length w) r cs) = Some x ->
  exists y, run_star p i (w +:+ r) cs k = Some y.
Proof.
  induction w as [|c t IH]; intros r i cs k x Hw Hk; simpl in *.
  - rewrite Nat.add_0_r in Hk. destruct r as [|c r]; simpl.
    + eauto.
    + destruct (p c); [|eauto].
      destruct (run_star p (S i) r cs k); eauto.
  - apply andb_true_iff in Hw as [Hc Ht]. rewrite Hc.
    replace (i + S (String.length t))%nat
      with (S i + String.length t)%nat in Hk by lia.
    destruct (IH r (S i) cs k x Ht Hk) as [y ->]. eauto.
Qed.

Theorem run_sound r : forall st k x,
  run r st k = Some x -> exists st', denote r st st' /\ k st' = Some x.
Proof.
  induction r as [|p|r1 IH1 r2 IH2|r1 IH1|p|n r1 IH1| |];
    intros st k x H; simpl in *.
  - eauto.
  - destruct (rest st) as [|c t] eqn:Hr; [done|].
    destruct (p c) eqn:Hp; [|done].
    exists (MState (S (pos st)) t (caps st)). simpl. eauto 10.
  - apply IH1 in H as (mid & Hd1 & H). apply IH2 in H as (st' & Hd2 & H).
    eauto.
  - destruct (run r1 st k) eqn:Hr.
    + injection H as ->. apply IH1 in Hr as (st' & Hd & Hk). eauto.
    + eauto.
  - apply run_star_sound in H as (w & r & Hs & Hw & Hk).
    exists (MState (pos st + String.length w) r (caps st)). simpl. eauto 10.
  - apply IH1 in H as (st1 & Hd & Hk). eauto.
  - destruct (Nat.eqb_spec (pos st) 0); [eauto|done].
  - destruct (rest st) as [|c [|c' t]] eqn:Hr; [eauto| |done].
    destruct (Ascii.eqb_spec c newline) as [->|]; [eauto|done].
Qed.

Theorem run_complete r : forall st st' k x,
  denote r st st' -> k st' = Some x -> exists y, run r st k = Some y.
Proof.
  induction r as [|p|r1 IH1 r2 IH2|r1 IH1|p|n r1 IH1| |];
    intros st st' k x Hd Hk; simpl in *.
  - subst. eauto.
  - destruct Hd as (c & Hr & Hp & Hpos & Hcaps). rewrite Hr, Hp.
    rewrite <- Hpos, <- Hcaps, mstate_eta. eauto.
  - destruct Hd as (mid & Hd1 & Hd2).
    destruct (IH2 _ _ _ _ Hd2 Hk) as [y Hy].
    exact (IH1 _ _ _ _ Hd1 Hy).
  - destruct (run r1 st k) eqn:Hr; [eauto|].
    destruct Hd as [Hd| ->]; [|eauto].
    destruct (IH1 _ _ _ _ Hd Hk) as [y Hy]. congruence.
  - destruct Hd as (w & Hw & Hr & Hpos & Hcaps). rewrite Hr.
    apply run_star_complete with (x := x); [done|].
    rewrite <- Hpos, <- Hcaps, mstate_eta. done.
  - destruct Hd as (st1 & Hd & ->). eapply IH1; eauto.
  - destruct Hd as [-> ->]. eauto.
  - destruct Hd as [[->| ->] ->]; eauto.
Qed.

End Matcher.

(** ** Strings *)

Section Strings.

#[local] Arguments String.append !_ _ / : simpl nomatch.

Lemma str_app_cons c s t : String c s +:+ t = String c (s +:+ t).
Proof. reflexivity. Qed.

Lemma str_app_nil_r s : s +:+ EmptyString = s.
Proof. induction s; simpl; congruence. Qed.

Lemma str_app_assoc s t u : (s +:+ t) +:+ u = s +:+ t +:+ u.
Proof. induction s; simpl; congruence. Qed.

Lemma str_length_app s t :
  String.length (s +:+ t) = (String.length s + String.length t)%nat.
Proof. induction s; simpl; congruence. Qed.

Lemma all_chars_app p s t :
  all_chars p (s +:+ t) = all_chars p s && all_chars p t.
Proof.
  induction s as [|c s IH]; simpl; [done|].
  by rewrite IH, andb_assoc.
Qed.

(** A run of [p]-characters in front of a character outside [p] is
    determined by the string. *)
Lemma span_unique p w1 w2 c1 c2 r1 r2 :
  all_chars p w1 = true -> all_chars p w2 = true ->
  p c1 = false -> p c2 = false ->
  w1 +:+ String c1 r1 = w2 +:+ String c2 r2 ->
  w1 = w2 /\ c1 = c2 /\ r1 = r2.
Proof.
  revert w2. induction w1 as [|a w1 IH]; intros [|b w2] H1 H2 Hc1 Hc2 E;
    simpl in *; simplify_eq.
  - done.
  - apply andb_true_iff in H2 as [H2 _]. congruence.
  - apply andb_true_iff in H1 as [H1 _]. congruence.
  - apply andb_true_iff in H1 as [_ H1]. apply andb_true_iff in H2 as [_ H2].
    destruct (IH w2 H1 H2 Hc1 Hc2) as (-> & -> & ->); done.
Qed.

End Strings.

(** ** Character classes *)

Section Classes.

Lemma ascii_cases (P : ascii -> Prop) :
  (forall b0 b1 b2 b3 b4 b5 b6 b7, P (Ascii b0 b1 b2 b3 b4 b5 b6 b7)) ->
  forall c, P c.
Proof. intros H []. apply H. Qed.

Ltac by_cases :=
  intros c; pattern c; apply ascii_cases;
  intros [] [] [] [] [] [] [] []; vm_compute; intuition congruence.

Lemma is_0_5_digit c : is_0_5 c = true -> is_digit c = true.
Proof. revert c. by_cases. Qed.

Lemma digit_not_space c : is_digit c = true -> is_space c = false.
Proof. revert c. by_cases. Qed.

Lemma space_not_mark c :
  is_space c = true -> is_digit c = false /\ is_colon c = false /\
                       is_separator c = false.
Proof. revert c. by_cases. Qed.

Lemma separator_not_mark c :
  is_separator c = true -> is_digit c = false /\ is_colon c = false /\
                           is_space c = false.
Proof. revert c. by_cases. Qed.

End Classes.

(** ** The segment pattern against the written-out grammar *)

Section Segment.

#[local] Arguments String.append !_ _ / : simpl nomatch.

Lemma sub_2 n : (S (S n) - n = 2)%nat.
Proof. lia. Qed.

Lemma substring_0_0 s : substring 0 0 s = EmptyString.
Proof. by destruct s. Qed.

Lemma denote_pair n p q st st' :
  denote (Group n (Seq (Chr p) (Chr q))) st st' <->
  exists a b, p a = true /\ q b = true /\
    rest st = String a (String b (rest st')) /\
    pos st' = S (S (pos st)) /\
    caps st' = (n, String a (String b EmptyString)) :: caps st.
Proof.
  simpl. split.
  - intros (st1 & (mid & (a & Ha & Hpa & Hposa & Hca) &
                         (b & Hb & Hqb & Hposb & Hcb)) & ->).
    exists a, b. simpl. rewrite Ha, Hb, Hposb, Hposa, sub_2, Hcb, Hca.
    simpl. rewrite substring_0_0. split_and!; done.
  - intros (a & b & Hpa & Hqb & Hr & Hpos & Hc).
    exists (MState (S (S (pos st))) (rest st') (caps st)). split.
    + exists (MState (S (pos st)) (String b (rest st')) (caps st)).
      split; [exists a|exists b]; simpl; auto.
    + unfold set_cap. simpl. rewrite sub_2, Hr. simpl.
      rewrite substring_0_0, <- Hc, <- Hpos. by destruct st'.
Qed.

Lemma colon_fwd st st' :
  denote (Opt (Chr is_colon)) st st' ->
  exists c, optional ":" c /\ rest st = c +:+ rest st' /\
            caps st' = caps st.
Proof.
  simpl. intros [(c & Hr & Hc & Hp & Hcs)| ->].
  - apply Ascii.eqb_eq in Hc as ->.
    exists (String ":" EmptyString). unfold optional. auto.
  - exists EmptyString. unfold optional. auto.
Qed.

Lemma colon_bwd c st r :
  optional ":" c -> rest st = c +:+ r ->
  exists st', denote (Opt (Chr is_colon)) st st' /\ rest st' = r.
Proof.
  intros [->| ->] Hr; simpl in *.
  - exists st. auto.
  - exists (MState (S (pos st)) r (caps st)). split; [|done].
    left. exists ":"%char. auto.
Qed.

Lemma pair_fwd n p q st st' :
  denote (Group n (Seq (Chr p) (Chr q))) st st' ->
  exists x, two_chars p q x /\ rest st = x +:+ rest st' /\
            caps st' = (n, x) :: caps st.
Proof.
  intros (a & b & Ha & Hb & Hr & _ & Hc)%denote_pair.
  exists (String a (String b EmptyString)). split; [|done].
  exists a, b. auto.
Qed.

Lemma pair_bwd n p q x st r :
  two_chars p q x -> rest st = x +:+ r ->
  exists st', denote (Group n (Seq (Chr p) (Chr q))) st st' /\ rest st' = r.
Proof.
  intros (a & b & -> & Ha & Hb) Hr.
  exists (MState (S (S (pos st))) r
                 ((n, String a (String b EmptyString)) :: caps st)).
  split; [|done]. apply denote_pair. exists a, b. auto.
Qed.

Lemma hours_fwd g st st' :
  denote (Opt (Group g (Seq (Chr is_digit) (Chr is_digit)))) st st' ->
  exists h, hours_field h /\ rest st = opt_text h +:+ rest st' /\
            caps st' = hours_cap g h ++ caps st.
Proof.
  intros [H| ->].
  - apply pair_fwd in H as (x & Hx & Hr & Hc). by exists (Some x).
  - by exists None.
Qed.

Lemma hours_bwd g h st r :
  hours_field h -> rest st = opt_text h +:+ r ->
  exists st',
    denote (Opt (Group g (Seq (Chr is_digit) (Chr is_digit)))) st st' /\
    rest st' = r.
Proof.
  destruct h as [x|]; intros Hh Hr.
  - destruct (pair_bwd g _ _ x st r Hh Hr) as (st' & Hd & Hr').
    exists st'. split; [by left|done].
  - exists st. split; [by right|done].
Qed.

Lemma timestamp_fwd g st st' :
  denote (timestamp_re g) st st' ->
  exists t h m s, timestamp_text t h m s /\
    rest st = t +:+ rest st' /\
    caps st' = timestamp_caps g h m s ++ caps st.
Proof.
  intros (m1 & (h & Hh & Hr1 & Hc1)%hours_fwd &
          m2 & (c1 & Ho1 & Hr2 & Hc2)%colon_fwd &
          m3 & (mi & Hmi & Hr3 & Hc3)%pair_fwd &
          m4 & (c2 & Ho2 & Hr4 & Hc4)%colon_fwd &
          (se & Hse & Hr5 & Hc5)%pair_fwd).
  exists (opt_text h +:+ c1 +:+ mi +:+ c2 +:+ se), h, mi, se.
  split; [by exists c1, c2|].
  rewrite Hr1, Hr2, Hr3, Hr4, Hr5, Hc5, Hc4, Hc3, Hc2, Hc1.
  by rewrite !str_app_assoc.
Qed.

Lemma timestamp_bwd g t h m s st r :
  timestamp_text t h m s -> rest st = t +:+ r ->
  exists st', denote (timestamp_re g) st st' /\ rest st' = r.
Proof.
  intros (c1 & c2 & -> & Hh & Ho1 & Hm & Ho2 & Hs) Hr.
  rewrite !str_app_assoc in Hr.
  destruct (hours_bwd g h st _ Hh Hr) as (m1 & Hd1 & Hr1).
  destruct (colon_bwd c1 m1 _ Ho1 Hr1) as (m2 & Hd2 & Hr2).
  destruct (pair_bwd (g + 1) _ _ m m2 _ Hm Hr2) as (m3 & Hd3 & Hr3).
  destruct (colon_bwd c2 m3 _ Ho2 Hr3) as (m4 & Hd4 & Hr4).
  destruct (pair_bwd (g + 2) _ _ s m4 _ Hs Hr4) as (st' & Hd5 & Hr5).
  exists st'. split; [|done].
  exists m1. split; [done|]. exists m2. split; [done|].
  exists m3. split; [done|]. exists m4. split; done.
Qed.

Lemma star_fwd p st st' :
  denote (Star p) st st' ->
  exists w, all_chars p w = true /\ rest st = w +:+ rest st' /\
            caps st' = caps st.
Proof. intros (w & Hw & Hr & _ & Hc). eauto. Qed.

Lemma star_bwd p w st r :
  all_chars p w = true -> rest st = w +:+ r ->
  exists st', denote (Star p) st st' /\ rest st' = r.
Proof.
  intros Hw Hr.
  exists (MState (pos st + String.length w) r (caps st)).
  split; [|done]. exists w. auto.
Qed.

(** The pattern, run from the start of [s], reaches exactly the strings of
    the written-out grammar, and its groups are the fields of the text. *)
Lemma pattern_fwd s st' :
  denote pattern (MState 0 s []) st' -> segment_text s (groups 6 st').
Proof.
  intros (m0 & [_ ->] &
          m1 & (t1 & h1 & mi1 & s1 & Ht1 & Hr1 & Hc1)%timestamp_fwd &
          m2 & (w1 & Hw1 & Hr2 & Hc2)%star_fwd &
          m3 & (sep & Hr3 & Hsep & _ & Hc3) &
          m4 & (w2 & Hw2 & Hr4 & Hc4)%star_fwd &
          m5 & (t2 & h2 & mi2 & s2 & Ht2 & Hr5 & Hc5)%timestamp_fwd &
          (Hnl & ->)).
  simpl in Hr1, Hc1.
  exists t1, w1, sep, w2, t2, (rest m5), h1, mi1, s1, h2, mi2, s2.
  split_and!; try done.
  - by rewrite Hr1, Hr2, Hr3, Hr4, Hr5.
  - unfold groups. rewrite Hc5, Hc4, Hc3, Hc2, Hc1.
    destruct h1, h2; reflexivity.
Qed.

Lemma pattern_bwd s g :
  segment_text s g -> exists st', denote pattern (MState 0 s []) st'.
Proof.
  intros (t1 & w1 & sep & w2 & t2 & nl & h1 & mi1 & s1 & h2 & mi2 & s2 &
          -> & Ht1 & Hw1 & Hsep & Hw2 & Ht2 & Hnl & _).
  set (st0 := MState 0 _ []).
  destruct (timestamp_bwd 1 _ _ _ _ st0 _ Ht1 eq_refl) as (m1 & Hd1 & Hr1).
  destruct (star_bwd _ w1 m1 _ Hw1 Hr1) as (m2 & Hd2 & Hr2).
  set (m3 := MState (S (pos m2)) (w2 +:+ t2 +:+ nl) (caps m2)).
  destruct (star_bwd _ w2 m3 _ Hw2 eq_refl) as (m4 & Hd4 & Hr4).
  destruct (timestamp_bwd 4 _ _ _ _ m4 _ Ht2 Hr4) as (m5 & Hd5 & Hr5).
  exists m5, st0. split; [done|]. exists m1. split; [done|].
  exists m2. split; [done|]. exists m3. split; [by exists sep|].
  exists m4. split; [done|]. exists m5. split; [done|].
  split; [|done]. by rewrite Hr5.
Qed.

Ltac split_fields :=
  repeat match goal with
  | H : timestamp_text _ _ _ _ |- _ =>
      destruct H as (? & ? & -> & ? & ? & ? & ? & ?)
  | H : hours_field (Some _) |- _ => simpl in H
  | H : sixty_field _ |- _ => destruct H as (? & ? & -> & ?%is_0_5_digit & ?)
  | H : two_chars _ _ _ |- _ => destruct H as (? & ? & -> & ? & ?)
  | H : optional _ _ |- _ => destruct H as [->| ->]
  end.

Ltac clash :=
  repeat match goal with
  | H : no_mark_head (String _ _) |- _ => destruct H
  end;
  try congruence;
  try match goal with
  | H : is_digit ":" = true |- _ => by vm_compute in H
  | H : is_colon ":" = false |- _ => by vm_compute in H
  end.

Lemma timestamp_unique t h m s r t' h' m' s' r' :
  timestamp_text t h m s -> timestamp_text t' h' m' s' ->
  no_mark_head r -> no_mark_head r' ->
  t +:+ r = t' +:+ r' ->
  h = h' /\ m = m' /\ s = s' /\ r = r'.
Proof.
  intros Ht Ht' Hr Hr' E. destruct h, h'; split_fields; simpl in E.
  all: simplify_eq.
  all: try done.
  all: clash.
Qed.

Lemma no_mark_head_space w c r :
  all_chars is_space w = true -> is_separator c = true ->
  no_mark_head (w +:+ String c r).
Proof.
  destruct w as [|a w]; simpl.
  - intros _ H. apply separator_not_mark in H. tauto.
  - intros [H _]%andb_true_iff _. apply space_not_mark in H. tauto.
Qed.

Lemma no_mark_head_end nl : optional newline nl -> no_mark_head nl.
Proof. by intros [->| ->]. Qed.

Lemma timestamp_head t h m s :
  timestamp_text t h m s ->
  exists c u, t = String c u /\ is_space c = false.
Proof.
  intros Ht. destruct h; split_fields; simpl; eexists _, _;
    (split; [reflexivity|]);
    first [ by apply digit_not_space | by vm_compute ].
Qed.

Theorem segment_text_unique s g g' :
  segment_text s g -> segment_text s g' -> g = g'.
Proof.
  intros (t1 & w1 & sep & w2 & t2 & nl & h1 & mi1 & s1 & h2 & mi2 & s2 &
          -> & Ht1 & Hw1 & Hsep & Hw2 & Ht2 & Hnl & ->)
         (t1' & w1' & sep' & w2' & t2' & nl' & h1' & mi1' & s1' & h2' &
          mi2' & s2' & E & Ht1' & Hw1' & Hsep' & Hw2' & Ht2' & Hnl' & ->).
  destruct (timestamp_unique _ _ _ _ _ _ _ _ _ _ Ht1 Ht1'
              (no_mark_head_space _ _ _ Hw1 Hsep)
              (no_mark_head_space _ _ _ Hw1' Hsep') E)
    as (-> & -> & -> & E1).
  destruct (separator_not_mark _ Hsep) as (_ & _ & Hs).
  destruct (separator_not_mark _ Hsep') as (_ & _ & Hs').
  destruct (span_unique _ _ _ _ _ _ _ Hw1 Hw1' Hs Hs' E1) as (_ & _ & E2).
  destruct (timestamp_head _ _ _ _ Ht2) as (c & u & Hu & Hc).
  destruct (timestamp_head _ _ _ _ Ht2') as (c' & u' & Hu' & Hc').
  assert (E3 : w2 +:+ String c (u +:+ nl) = w2' +:+ String c' (u' +:+ nl')).
  { revert E2. rewrite Hu, Hu'. by simpl. }
  destruct (span_unique _ _ _ _ _ _ _ Hw2 Hw2' Hc Hc' E3) as (_ & -> & E4).
  assert (E5 : t2 +:+ nl = t2' +:+ nl').
  { rewrite Hu, Hu'. simpl. by rewrite E4. }
  destruct (timestamp_unique _ _ _ _ _ _ _ _ _ _ Ht2 Ht2'
              (no_mark_head_end _ Hnl) (no_mark_head_end _ Hnl') E5)
    as (-> & -> & -> & _).
  done.
Qed.

Lemma search_from_eq r i s :
  search_from r i s =
    match run r (MState i s []) Some with
    | Some m => Some m
    | None =>
        match s with
        | String _ t => search_from r (S i) t
        | EmptyString => None
        end
    end.
Proof. by destruct s. Qed.

Lemma search_from_later s : forall i, search_from pattern (S i) s = None.
Proof. induction s as [|c s IH]; intros i; simpl; [done|apply IH]. Qed.

Lemma search_pattern s : search pattern s = run pattern (MState 0 s []) Some.
Proof.
  unfold search. rewrite search_from_eq.
  destruct (run pattern _ Some); [done|].
  destruct s; [done|apply search_from_later].
Qed.

(** [re.search] finds a match exactly on the strings of the grammar, and
    the groups it reports are the fields of the text. *)
Theorem search_segment s g :
  segment_text s g <-> exists m, search pattern s = Some m /\ groups 6 m = g.
Proof.
  rewrite search_pattern. split.
  - intros Hg. destruct (pattern_bwd _ _ Hg) as (st' & Hd).
    destruct (run_complete _ _ _ Some st' Hd eq_refl) as [m Hm].
    exists m. split; [done|].
    apply run_sound in Hm as (st1 & Hd1 & [= ->]).
    eapply segment_text_unique; [|done]. by apply pattern_fwd.
  - intros (m & Hm & <-).
    apply run_sound in Hm as (st1 & Hd1 & [= ->]). by apply pattern_fwd.
Qed.

Lemma search_none s :
  search pattern s = None <-> ~ exists g, segment_text s g.
Proof.
  split.
  - intros Hn (g & (m & Hm & _)%search_segment). congruence.
  - intros Hn. destruct (search pattern s) as [m|] eqn:Hm; [|done].
    destruct Hn. exists (groups 6 m). apply search_segment. eauto.
Qed.

Lemma timestamp_seconds_total h m s :
  timestamp_seconds (Some s) (Some m) (Some h) = h * 3600 + m * 60 + s.
Proof.
  unfold timestamp_seconds, int_truthy, int_get.
  destruct (Z.eqb_spec h 0), (Z.eqb_spec m 0), (Z.eqb_spec s 0);
    simpl; lia.
Qed.

Lemma group_int_pair p x :
  two_chars p is_digit x -> (forall c, p c = true -> is_digit c = true) ->
  group_int (Some x) = Ok (field_value (Some x)).
Proof.
  intros (a & b & -> & Ha & Hb) Hp. apply Hp in Ha.
  unfold group_int, int, field_value. simpl. unfold digit_value.
  unfold is_digit in Ha, Hb. by rewrite Ha, Hb.
Qed.

Lemma group_int_hours h :
  hours_field h -> group_int h = Ok (field_value h).
Proof.
  destruct h as [x|]; [|done]. intros H.
  by apply (group_int_pair is_digit).
Qed.

Lemma group_int_sixty x :
  sixty_field x -> group_int (Some x) = Ok (field_value (Some x)).
Proof. intros H. apply (group_int_pair is_0_5); [done|apply is_0_5_digit]. Qed.

(** The result of [segment_seconds] on a string of the grammar. *)
Lemma segment_seconds_match s g :
  segment_text s g ->
  segment_seconds s =
    if snd (segment_value g) <? fst (segment_value g)
    then Raise RangeError else Ok (segment_value g).
Proof.
  intros Hg. pose proof Hg as (m & Hm & Hgm)%search_segment.
  unfold segment_seconds. rewrite Hm, Hgm.
  destruct Hg as (t1 & w1 & sep & w2 & t2 & nl & h1 & mi1 & s1 & h2 & mi2 &
                  s2 & _ & Ht1 & _ & _ & _ & Ht2 & _ & ->).
  destruct Ht1 as (_ & _ & _ & Hh1 & _ & Hm1 & _ & Hs1).
  destruct Ht2 as (_ & _ & _ & Hh2 & _ & Hm2 & _ & Hs2).
  cbn [mapM]. rewrite (group_int_hours _ Hh1), (group_int_hours _ Hh2).
  rewrite (group_int_sixty _ Hm1), (group_int_sixty _ Hs1).
  rewrite (group_int_sixty _ Hm2), (group_int_sixty _ Hs2).
  cbn [bind]. rewrite !timestamp_seconds_total. reflexivity.
Qed.

Lemma segment_seconds_nomatch s :
  (~ exists g, segment_text s g) -> segment_seconds s = Raise (FormatError s).
Proof. intros H%search_none. unfold segment_seconds. by rewrite H. Qed.

Lemma segment_text_dec s :
  (exists g, segment_text s g) \/ ~ (exists g, segment_text s g).
Proof.
  destruct (search pattern s) as [m|] eqn:Hm.
  - left. exists (groups 6 m). apply search_segment. eauto.
  - right. by apply search_none.
Qed.

End Segment.

(** ** Rendering and parsing back *)

Section Render.

#[local] Arguments String.append !_ _ / : simpl nomatch.

Lemma digit_char_facts d :
  0 <= d <= 9 ->
  is_digit (digit_char d) = true /\ digit_value (digit_char d) = Some d /\
  (d <= 5 -> is_0_5 (digit_char d) = true).
Proof.
  intros H.
  assert (d = 0 \/ d = 1 \/ d = 2 \/ d = 3 \/ d = 4 \/ d = 5 \/ d = 6 \/
          d = 7 \/ d = 8 \/ d = 9) as Hd by lia.
  destruct_or!; subst d; split_and!; try reflexivity; intros; lia.
Qed.

Ltac div_bounds := Z.div_mod_to_equations; lia.

Lemma two_digit_hours n :
  0 <= n < 100 ->
  two_chars is_digit is_digit (two_digit n) /\
  field_value (Some (two_digit n)) = n.
Proof.
  intros H.
  destruct (digit_char_facts (n / 10)) as (Ha & Hva & _); [div_bounds|].
  destruct (digit_char_facts (n mod 10)) as (Hb & Hvb & _); [div_bounds|].
  split.
  - eexists _, _. eauto.
  - unfold field_value, two_digit. simpl. rewrite Hva, Hvb. div_bounds.
Qed.

Lemma two_digit_sixty n :
  0 <= n < 60 ->
  sixty_field (two_digit n) /\ field_value (Some (two_digit n)) = n.
Proof.
  intros H. destruct (two_digit_hours n) as [(a & b & E & Ha & Hb) Hv];
    [lia|].
  split; [|done]. exists a, b. split_and!; [done| |done].
  injection E as <- _. apply digit_char_facts; div_bounds.
Qed.

Lemma render_timestamp_text t :
  0 <= t < 360000 ->
  timestamp_text (render_timestamp t) (Some (two_digit (t / 3600)))
    (two_digit (t / 60 mod 60)) (two_digit (t mod 60)).
Proof.
  intros H.
  exists (String ":" EmptyString), (String ":" EmptyString).
  split_and!.
  - reflexivity.
  - apply two_digit_hours. div_bounds.
  - by right.
  - apply two_digit_sixty. div_bounds.
  - by right.
  - apply two_digit_sixty. div_bounds.
Qed.

Lemma render_timestamp_value t :
  0 <= t < 360000 ->
  field_value (Some (two_digit (t / 3600))) * 3600 +
  field_value (Some (two_digit (t / 60 mod 60))) * 60 +
  field_value (Some (two_digit (t mod 60))) = t.
Proof.
  intros H.
  destruct (two_digit_hours (t / 3600)) as [_ ->]; [div_bounds|].
  destruct (two_digit_sixty (t / 60 mod 60)) as [_ ->]; [div_bounds|].
  destruct (two_digit_sixty (t mod 60)) as [_ ->]; [div_bounds|].
  div_bounds.
Qed.

Lemma render_segment_text a b :
  0 <= a < 360000 -> 0 <= b < 360000 ->
  segment_text (render_segment a b)
    [Some (two_digit (a / 3600)); Some (two_digit (a / 60 mod 60));
     Some (two_digit (a mod 60));
     Some (two_digit (b / 3600)); Some (two_digit (b / 60 mod 60));
     Some (two_digit (b mod 60))].
Proof.
  intros Ha Hb.
  exists (render_timestamp a), EmptyString, "-"%char, EmptyString,
         (render_timestamp b), EmptyString.
  eexists _, _, _, _, _, _. split_and!; [| | | | | | |reflexivity].
  - unfold render_segment. by rewrite str_app_nil_r.
  - by apply render_timestamp_text.
  - done.
  - done.
  - done.
  - by apply render_timestamp_text.
  - by left.
Qed.

End Render.

(** ** The claims about segments *)

Section SegmentClaims.

#[local] Arguments String.append !_ _ / : simpl nomatch.

Lemma format_not_range s : FormatError s <> RangeError.
Proof. unfold FormatError, RangeError. by intros [=]. Qed.

(** C2 (as amended).  [segment_seconds] raises the format error exactly on
    the strings outside the grammar of its pattern, in which the hours and
    each colon of a timestamp are optional and one newline may end the
    text; it raises the range error exactly when the string is in the
    grammar and its end lies before its start; otherwise it returns the
    start and end in seconds.  [5:00-10:00] is a format error and
    [05:00-00:10] a range error. *)
Theorem segment_seconds_outcomes :
  (forall s, segment_seconds s = Raise (FormatError s) <->
             ~ exists g, segment_text s g) /\
  (forall s, segment_seconds s = Raise RangeError <->
             exists g, segment_text s g /\
                       snd (segment_value g) < fst (segment_value g)) /\
  (forall s st en, segment_seconds s = Ok (st, en) <->
             exists g, segment_text s g /\ segment_value g = (st, en) /\
                       st <= en) /\
  segment_seconds "5:00-10:00" = Raise (FormatError "5:00-10:00") /\
  segment_seconds "05:00-00:10" = Raise RangeError.
Proof.
  split_and!; [intros s|intros s|intros s st en|by vm_compute|by vm_compute].
  - split; [|apply segment_seconds_nomatch].
    intros H [g Hg]. rewrite (segment_seconds_match _ _ Hg) in H.
    destruct (_ <? _); [|done]. injection H as H.
    by apply (format_not_range s); f_equal.
  - split.
    + intros H. destruct (segment_text_dec s) as [[g Hg]|Hn].
      * exists g. split; [done|].
        rewrite (segment_seconds_match _ _ Hg) in H.
        destruct (Z.ltb_spec (snd (segment_value g)) (fst (segment_value g)));
          [done|discriminate].
      * rewrite (segment_seconds_nomatch _ Hn) in H. injection H as H.
        by destruct (format_not_range s); f_equal.
    + intros (g & Hg & Hlt). rewrite (segment_seconds_match _ _ Hg).
      by apply Z.ltb_lt in Hlt as ->.
  - split.
    + intros H. destruct (segment_text_dec s) as [[g Hg]|Hn].
      * exists g. split; [done|].
        rewrite (segment_seconds_match _ _ Hg) in H.
        destruct (Z.ltb_spec (snd (segment_value g)) (fst (segment_value g)));
          [discriminate|].
        injection H as H. rewrite H in *. simpl in *. done.
      * by rewrite (segment_seconds_nomatch _ Hn) in H.
    + intros (g & Hg & Hv & Hle). rewrite (segment_seconds_match _ _ Hg), Hv.
      simpl. by apply Z.ltb_ge in Hle as ->.
Qed.

(** C6.  A pair of second counts with [start <= end], both below 360000,
    rendered as [HH:MM:SS-HH:MM:SS], parses back to the same pair. *)
Theorem segment_roundtrip (start end_ : Z) :
  0 <= start -> start <= end_ -> end_ < 360000 ->
  segment_seconds (render_segment start end_) = Ok (start, end_).
Proof.
  intros H0 Hle Hlt.
  rewrite (segment_seconds_match _ _
             (render_segment_text start end_ ltac:(lia) ltac:(lia))).
  unfold segment_value.
  rewrite !render_timestamp_value by lia. cbn [fst snd].
  by apply Z.ltb_ge in Hle as ->.
Qed.

Lemma segment_roundtrip_witness :
  segment_seconds (render_segment 3725 86399) = Ok (3725, 86399).
Proof. apply segment_roundtrip; lia. Defined.

Lemma claimed_timestamp_colon t :
  claimed_timestamp t -> all_chars (fun c => negb (is_colon c)) t = false.
Proof.
  intros (pre & mi & se & -> & _ & _ & _).
  rewrite !all_chars_app. simpl. by rewrite !andb_false_r.
Qed.

Lemma claimed_segment_colon s :
  claimed_segment s -> all_chars (fun c => negb (is_colon c)) s = false.
Proof.
  intros (t1 & w1 & sep & w2 & t2 & -> & Ht1%claimed_timestamp_colon & _).
  by rewrite all_chars_app, Ht1.
Qed.

Lemma last_is_app p x y :
  y <> EmptyString -> last_is p (x +:+ y) = last_is p y.
Proof.
  intros Hy. induction x as [|c x IH]; [done|].
  rewrite str_app_cons. cbn [last_is]. rewrite IH.
  destruct (x +:+ y) eqn:E; [|done]. by destruct x, y.
Qed.

Lemma claimed_timestamp_ends t :
  claimed_timestamp t -> t <> EmptyString /\ last_is is_digit t = true.
Proof.
  intros (pre & mi & se & -> & _ & _ & (a & b & -> & _ & Hb)). split.
  - by destruct pre, mi.
  - rewrite <- str_app_assoc, last_is_app by done. exact Hb.
Qed.

Lemma claimed_segment_ends s :
  claimed_segment s -> last_is is_digit s = true.
Proof.
  intros (t1 & w1 & sep & w2 & t2 & -> & _ & _ & _ & _ &
          [Hne Hlast]%claimed_timestamp_ends).
  rewrite <- str_app_assoc.
  change (String sep (w2 +:+ t2)) with (String sep w2 +:+ t2).
  rewrite <- str_app_assoc. by rewrite last_is_app.
Qed.

(** C2 (as stated) fails: a segment written without any colon, and one
    followed by a newline, are outside the grammar [[[HH]:]MM:SS], yet
    they are parsed, not rejected. *)
Lemma segment_seconds_colonless :
  ~ claimed_segment "0010-0020" /\
  segment_seconds "0010-0020" = Ok (10, 20) /\
  ~ claimed_segment ("00:10-00:20" +:+ String newline EmptyString) /\
  segment_seconds ("00:10-00:20" +:+ String newline EmptyString)
    = Ok (10, 20).
Proof.
  split_and!; [|by vm_compute| |by vm_compute].
  - intros H%claimed_segment_colon. by vm_compute in H.
  - intros H%claimed_segment_ends. by vm_compute in H.
Qed.

Lemma segment_seconds_raises s e :
  segment_seconds s = Raise e -> caught e = true.
Proof.
  destruct (segment_text_dec s) as [[g Hg]|Hn].
  - rewrite (segment_seconds_match _ _ Hg).
    destruct (_ <? _); by intros [= <-].
  - rewrite (segment_seconds_nomatch _ Hn). by intros [= <-].
Qed.

(** C8.  [is_valid_segment] answers [True] on the empty string, which the
    parser itself rejects; on a non-empty string it answers whether
    [segment_seconds] succeeds; it never raises; and [not a segment] is
    not valid. *)
Theorem is_valid_segment_spec :
  is_valid_segment EmptyString = Ok true /\
  segment_seconds EmptyString = Raise (FormatError EmptyString) /\
  (forall c s, is_valid_segment (String c s) =
               Ok (is_ok (segment_seconds (String c s)))) /\
  (forall s, exists b, is_valid_segment s = Ok b) /\
  is_valid_segment "not a segment" = Ok false.
Proof.
  assert (Hne : forall c s, is_valid_segment (String c s) =
                            Ok (is_ok (segment_seconds (String c s)))).
  { intros c s. unfold is_valid_segment. cbn [str_truthy negb].
    destruct (segment_seconds (String c s)) as [r|e] eqn:E; [done|].
    by rewrite (segment_seconds_raises _ _ E). }
  split_and!; [by vm_compute|by vm_compute|exact Hne| |by vm_compute].
  intros [|c s]; [by exists true|]. rewrite Hne. eauto.
Qed.

End SegmentClaims.

(** ** The collection *)

Ltac decide_by_compute :=
  match goal with
  | |- ?P => apply (bool_decide_eq_true_1 P); vm_compute; reflexivity
  end.

Section Collection.

Lemma records_of_app (self1 self2 : MetadataList) :
  records_of (self1 ++ self2) = records_of self1 ++ records_of self2.
Proof.
  induction self1 as [|item self1 IH]; simpl; [done|].
  destruct (item_truthy item); simpl; by rewrite IH.
Qed.

Lemma records_of_length (self : MetadataList) :
  (length (records_of self) <= length self)%nat.
Proof.
  induction self as [|item self IH]; simpl; [done|].
  destruct (item_truthy item); simpl; lia.
Qed.

Lemma get_item_falsy (item : option dict) (self : MetadataList) key X :
  item_truthy item = false ->
  get_item (item :: self) key X = get_item self key X.
Proof. destruct item as [d|]; simpl; [|done]. by intros ->. Qed.

Lemma get_item_truthy (item : option dict) (self : MetadataList) key X :
  item_truthy item = true ->
  get_item (item :: self) key X =
    let* v := getitem (default ∅ item) key in
    if bool_decide (v = X) then Ok (Some (default ∅ item))
    else get_item self key X.
Proof. destruct item as [d|]; simpl; [|done]. by intros ->. Qed.

(** C5 (as stated) fails: a record added without data holds none of the
    five fields, and reading any of them raises [KeyError]. *)
Lemma add_item_no_defaults :
  snd (add_item [] ∅) = ∅ /\
  map (fun k => getitem (snd (add_item [] ∅)) (Some k)) KEYS =
  map (fun k => Raise (KeyError (Some k))) KEYS.
Proof. split; by vm_compute. Qed.

(** C5 (as amended).  [add_item] builds a record that holds exactly the
    fields it was given, appends it at the end of the collection and
    returns it; reading a field of the returned record succeeds exactly
    when the field was supplied, and raises [KeyError] otherwise. *)
Theorem add_item_appends (self : MetadataList) (data : dict) :
  fst (add_item self data) = self ++ [Some (snd (add_item self data))] /\
  last (fst (add_item self data)) = Some (Some (snd (add_item self data))) /\
  length (fst (add_item self data)) = S (length self) /\
  snd (add_item self data) = data /\
  (forall k v, getitem (snd (add_item self data)) k = Ok v <->
               data !! k = Some v) /\
  (forall k, getitem (snd (add_item self data)) k = Raise (KeyError k) <->
             data !! k = None).
Proof.
  unfold add_item, Metadata, getitem. cbn [fst snd]. split_and!.
  - done.
  - by rewrite last_snoc.
  - rewrite length_app. simpl. lia.
  - done.
  - intros k v. destruct (data !! k); split; congruence.
  - intros k. destruct (data !! k); split; congruence.
Qed.

(** C7 (as stated) fails: a non-empty record without the searched field
    makes the lookup raise [KeyError] instead of answering "not found". *)
Lemma get_item_raises :
  get_item (fst (add_item [] (<[Some "title" := VStr "T"]> ∅)))
           (Some "filepath") (VStr "x.mp3")
  = Raise (KeyError (Some "filepath")).
Proof. by vm_compute. Qed.

(** C7 (as amended).  In a collection whose non-empty records all hold
    the searched field, [get_item] returns the first record, in insertion
    order, whose value for the field equals the one sought, skipping
    [None] and empty records, and returns [None], without raising, when
    there is none. *)
Theorem get_item_first (self : MetadataList) (key : option string)
    (X : value) :
  Forall (fun d : dict => is_Some (d !! key)) (records_of self) ->
  get_item self key X =
    Ok (List.find (fun d : dict => bool_decide (d !! key = Some X))
                  (records_of self)).
Proof.
  induction self as [|item self IH]; [done|]. cbn [records_of].
  destruct (item_truthy item) eqn:Ht.
  - intros [[v Hv] Hall]%Forall_cons. rewrite get_item_truthy by done.
    unfold getitem. rewrite Hv. cbn [bind List.find]. rewrite Hv.
    destruct (decide (v = X)) as [->|Hne].
    + by rewrite !bool_decide_eq_true_2.
    + rewrite !bool_decide_eq_false_2 by congruence. by apply IH.
  - intros Hall. rewrite get_item_falsy by done. by apply IH.
Qed.

Lemma get_item_first_witness :
  Forall (fun d : dict => is_Some (d !! Some "filepath"))
         (records_of sample_list) /\
  get_item sample_list (Some "filepath") (VStr "t.mp3")
    = Ok (Some sample_record) /\
  get_item sample_list (Some "filepath") (VStr "u.mp3") = Ok None.
Proof.
  assert (H : Forall (fun d : dict => is_Some (d !! Some "filepath"))
                     (records_of sample_list)) by decide_by_compute.
  assert (E1 : Ok (List.find
                     (fun d : dict =>
                        bool_decide (d !! Some "filepath" = Some (VStr "t.mp3")))
                     (records_of sample_list)) = Ok (Some sample_record))
    by decide_by_compute.
  assert (E2 : Ok (List.find
                     (fun d : dict =>
                        bool_decide (d !! Some "filepath" = Some (VStr "u.mp3")))
                     (records_of sample_list)) = Ok None)
    by decide_by_compute.
  split; [exact H|split].
  - exact (eq_trans
             (get_item_first sample_list (Some "filepath") (VStr "t.mp3") H)
             E1).
  - exact (eq_trans
             (get_item_first sample_list (Some "filepath") (VStr "u.mp3") H)
             E2).
Defined.

End Collection.

(** ** Writing the collection *)

Section Writing.

#[local] Arguments String.append !_ _ / : simpl nomatch.

Lemma build_rows_records (self : MetadataList) :
  build_rows self = mapM csv_row (records_of self).
Proof.
  induction self as [|item self IH]; [done|]. cbn [build_rows records_of].
  destruct (item_truthy item); [|done]. cbn [mapM]. by rewrite IH.
Qed.

Lemma records_of_records (self : MetadataList) :
  records_of (map Some (records_of self)) = records_of self.
Proof.
  induction self as [|item self IH]; [done|]. cbn [records_of].
  destruct item as [d|]; simpl; [|done].
  destruct (dict_truthy d) eqn:Ht; [|done].
  simpl. rewrite Ht. simpl. by rewrite IH.
Qed.

Lemma mapM_length {A B} (f : A -> res B) (l : list A) (l' : list B) :
  mapM f l = Ok l' -> length l' = length l.
Proof.
  revert l'. induction l as [|x l IH]; intros l'; cbn [mapM].
  - by intros [= <-].
  - destruct (f x); [|done]. cbn [bind].
    destruct (mapM f l) as [ys|]; [|done]. cbn [bind].
    intros [= <-]. simpl. by rewrite (IH ys).
Qed.

Lemma joined_cell_falsy v : value_truthy v = false -> joined_cell v = EmptyString.
Proof. by destruct v as [|[|]|[|]]. Qed.

Lemma join_truthy v :
  value_truthy v = true -> join ";" v = Ok (joined_cell v).
Proof. by destruct v. Qed.

Lemma insert_within (X : gset (option string)) (k : option string)
    (v : value) (m : dict) :
  k ∈ X -> dom m ⊆ X -> dom (<[k := v]> m) ⊆ X.
Proof.
  intros Hk Hm x. rewrite dom_insert_L, elem_of_union, elem_of_singleton.
  intros [->|Hx]; [done|by apply Hm].
Qed.

(** The row built for a complete record is written as the cells of the
    record. *)
Lemma csv_row_cells (d : dict) :
  complete d ->
  exists row cells,
    csv_row d = Ok row /\ Csv.dict_to_list KEYS row = Ok cells /\
    map Csv.cell_text cells = record_cells d.
Proof.
  unfold complete, KEYS. rewrite !Forall_cons.
  intros ([fp Hfp] & [ev Hev] & [ti Hti] & [sp Hsp] & [sg Hsg] & _).
  unfold csv_row, getitem, record_cells, field_of.
  rewrite Hfp, Hev, Hti, Hsp, Hsg. cbn [bind default].
  destruct (value_truthy sp) eqn:Tsp, (value_truthy sg) eqn:Tsg;
    rewrite ?(join_truthy _ Tsp), ?(join_truthy _ Tsg),
            ?(joined_cell_falsy _ Tsp), ?(joined_cell_falsy _ Tsg);
    cbn [bind]; eexists _, _; (split; [reflexivity|]);
    unfold Csv.dict_to_list;
    (rewrite bool_decide_eq_true_2;
      [|repeat (apply insert_within; [decide_by_compute|]);
        rewrite dom_empty_L; apply empty_subseteq]);
    (split; [reflexivity|]); cbn [map KEYS].
  all: simplify_map_eq.
  all: by rewrite ?(joined_cell_falsy _ Tsp), ?(joined_cell_falsy _ Tsg).
Qed.

Lemma mapM_csv_row (ds : list dict) :
  Forall complete ds ->
  exists rows,
    mapM csv_row ds = Ok rows /\
    Forall2 (fun d row => exists cells,
               Csv.dict_to_list KEYS row = Ok cells /\
               map Csv.cell_text cells = record_cells d) ds rows.
Proof.
  induction 1 as [|d ds Hd _ (rows & Hrows & Hall)].
  - by exists [].
  - destruct (csv_row_cells d Hd) as (row & cells & Hrow & Hcells & Htext).
    exists (row :: rows). cbn [mapM]. rewrite Hrow, Hrows. split; [done|].
    constructor; eauto.
Qed.

Lemma writerows_text (ds : list dict) (rows : list dict) :
  Forall2 (fun d row => exists cells,
             Csv.dict_to_list KEYS row = Ok cells /\
             map Csv.cell_text cells = record_cells d) ds rows ->
  forall out,
    Csv.writerows KEYS rows out =
      (out +:+ concat_lines
                 (map (fun d => Csv.writerow (record_cells d)) ds), None).
Proof.
  induction 1 as [|d row ds rows (cells & Hcells & Htext) _ IH]; intros out.
  - simpl. by rewrite str_app_nil_r.
  - cbn [Csv.writerows map concat_lines]. rewrite Hcells, Htext, IH.
    by rewrite str_app_assoc.
Qed.

Lemma open_write_ok (fs : filesystem) (path : string) :
  fs !! path <> Some Directory ->
  open_write fs path = Ok (<[path := File EmptyString]> fs).
Proof. unfold open_write. by destruct (fs !! path) as [[]|]. Qed.

Lemma write_to_csv_closed_form (self : MetadataList) (fs : filesystem)
    (output_csv : string) :
  Forall complete (records_of self) ->
  fs !! output_csv <> Some Directory ->
  write_to_csv self fs output_csv =
    (<[output_csv := File (csv_text (records_of self))]> fs, None).
Proof.
  intros Hall Hfs. unfold write_to_csv.
  rewrite build_rows_records.
  destruct (mapM_csv_row _ Hall) as (rows & -> & Hrows).
  rewrite (open_write_ok _ _ Hfs), (writerows_text _ _ Hrows). done.
Qed.

(** C3 (as stated) fails: a collection that holds one record, an empty
    one, is written as the header alone: no row stands for that record. *)
Lemma write_to_csv_no_row_for_empty :
  length (fst (add_item [] ∅)) = 1%nat /\
  write_to_csv (fst (add_item [] ∅)) ∅ "out.csv"
    = (<["out.csv" := File scenario_header]> ∅, None).
Proof. split; [reflexivity|decide_by_compute]. Qed.

(** C3 (as amended).  When every non-empty record of the collection holds
    the five fields and the destination can be opened, [write_to_csv]
    writes a header row with the fields in the order filepath, event_name,
    title, speakers, segments, then one row for each non-empty record in
    insertion order (an empty record or [None] has no row); every cell is
    wrapped in double quotes whatever it holds, the speakers and the
    segments are each joined with [;] into one cell, and an empty sequence
    gives an empty cell. *)
Theorem write_to_csv_text (self : MetadataList) (fs : filesystem)
    (output_csv : string) :
  Forall complete (records_of self) ->
  fs !! output_csv <> Some Directory ->
  write_to_csv self fs output_csv =
    (<[output_csv := File (csv_text (records_of self))]> fs, None).
Proof. apply write_to_csv_closed_form. Qed.

Lemma write_to_csv_scenario :
  Forall complete (records_of (fst (add_item [] sample_record))) /\
  (∅ : filesystem) !! "out.csv" <> Some Directory /\
  write_to_csv (fst (add_item [] sample_record)) ∅ "out.csv" =
    (<["out.csv" := File (scenario_header +:+ scenario_row)]> ∅, None).
Proof.
  assert (H1 : Forall complete (records_of (fst (add_item [] sample_record))))
    by decide_by_compute.
  assert (H2 : (∅ : filesystem) !! "out.csv" <> Some Directory)
    by decide_by_compute.
  assert (E : (<["out.csv" :=
                  File (csv_text (records_of (fst (add_item [] sample_record))))]>
                 (∅ : filesystem), @None exn)
              = (<["out.csv" := File (scenario_header +:+ scenario_row)]> ∅,
                 None))
    by decide_by_compute.
  exact (conj H1 (conj H2
           (eq_trans (write_to_csv_text _ ∅ "out.csv" H1 H2) E))).
Defined.

(** C10.  [write_to_csv] builds a row only for the items of the list that
    are non-empty dictionaries: the rows are those of the non-empty
    records, the outcome is the one for the collection without its empty
    items, and a collection made of one record added without data is
    written as the header alone, so there can be fewer rows than
    records. *)
Theorem write_to_csv_skips_empty :
  (forall self, build_rows self = mapM csv_row (records_of self)) /\
  (forall self rows, build_rows self = Ok rows ->
                     length rows = length (records_of self)) /\
  (forall self, (length (records_of self) <= length self)%nat) /\
  (forall self fs path,
     write_to_csv self fs path =
     write_to_csv (map Some (records_of self)) fs path) /\
  (forall self, build_rows (self ++ [Some ∅]) = build_rows self) /\
  length (fst (add_item [] ∅)) = 1%nat /\
  build_rows (fst (add_item [] ∅)) = Ok [] /\
  write_to_csv (fst (add_item [] ∅)) ∅ "out.csv"
    = (<["out.csv" := File (Csv.writeheader KEYS)]> ∅, None).
Proof.
  split_and!.
  - apply build_rows_records.
  - intros self rows. rewrite build_rows_records. apply mapM_length.
  - apply records_of_length.
  - intros self fs path. unfold write_to_csv.
    by rewrite !build_rows_records, records_of_records.
  - intros self. rewrite !build_rows_records, records_of_app.
    by rewrite app_nil_r.
  - reflexivity.
  - reflexivity.
  - decide_by_compute.
Qed.

End Writing.

(** ** Reading back what was written *)

Section Reading.

#[local] Arguments String.append !_ _ / : simpl nomatch.

Import Csv.

#[local] Arguments parse_add_char : simpl never.
#[local] Arguments within_limit : simpl never.

Ltac step :=
  repeat (progress (unfold set_state, parse_save_field, parse_process_char,
                      start_field, emit; simpl)).

Lemma parse_add_char_ok r a c :
  within_limit (field r +:+ String a c) = true ->
  parse_add_char r a =
    Ok (Reader (state r) (field r +:+ String a EmptyString) (fields r)).
Proof.
  unfold within_limit, parse_add_char. rewrite str_length_app. simpl.
  intros H%N.leb_le.
  destruct (N.leb_spec field_limit (N.of_nat (String.length (field r))));
    [lia|done].
Qed.

Lemma str_app_snoc (acc : string) a c :
  (acc +:+ String a EmptyString) +:+ c = acc +:+ String a c.
Proof. by rewrite str_app_assoc. Qed.

(** The content of a quoted cell, up to its closing quote. *)
Lemma records_quoted (c : string) : forall acc fs m rest,
  within_limit (acc +:+ c) = true ->
  records (Reader IN_QUOTED_FIELD acc fs) m
          (double_quotes c +:+ String dquote rest)
  = records (Reader QUOTE_IN_QUOTED_FIELD (acc +:+ c) fs) true rest.
Proof.
  induction c as [|a c IH]; intros acc fs m rest Hlim.
  - rewrite str_app_nil_r. reflexivity.
  - pose proof (parse_add_char_ok (Reader IN_QUOTED_FIELD acc fs) a c Hlim)
      as Hadd.
    pose proof (parse_add_char_ok
                  (Reader QUOTE_IN_QUOTED_FIELD acc fs) a c Hlim) as Hadd'.
    simpl in Hadd, Hadd'. rewrite <- str_app_snoc in Hlim.
    destruct (Ascii.eqb_spec a dquote) as [->|Hq].
    + step. rewrite Hadd'. step.
      rewrite (IH _ fs true rest Hlim). by rewrite str_app_snoc.
    + apply Ascii.eqb_neq in Hq. step. rewrite Hq. step. rewrite Hq, Hadd.
      destruct (Ascii.eqb a newline); step.
      * rewrite (IH _ fs false rest Hlim). by rewrite str_app_snoc.
      * rewrite (IH _ fs true rest Hlim). by rewrite str_app_snoc.
Qed.

Lemma line_read_one c rest :
  line_read [c] +:+ rest =
  String dquote (double_quotes c +:+ String dquote (String newline rest)).
Proof.
  unfold line_read, quoted. cbn [map String.concat].
  by rewrite !str_app_cons, !str_app_assoc.
Qed.

Lemma line_read_cons c1 c2 cs rest :
  line_read (c1 :: c2 :: cs) +:+ rest =
  String dquote
    (double_quotes c1 +:+
     String dquote (String "," (line_read (c2 :: cs) +:+ rest))).
Proof.
  unfold line_read, quoted. cbn [map String.concat].
  by rewrite !str_app_cons, !str_app_assoc.
Qed.

(** One row of quoted cells, up to and including its newline. *)
Lemma records_row (cs : list string) : forall c1 fs st m rest,
  st = START_RECORD \/ st = START_FIELD ->
  forallb within_limit (c1 :: cs) = true ->
  records (Reader st EmptyString fs) m (line_read (c1 :: cs) +:+ rest)
  = emit (fs ++ c1 :: cs) (records parse_reset false rest).
Proof.
  induction cs as [|c2 cs IH]; intros c1 fs st m rest Hst Hlim;
    cbn [forallb] in Hlim; apply andb_true_iff in Hlim as [H1 Hlim].
  - rewrite line_read_one. destruct Hst as [->| ->]; step.
    all: rewrite (records_quoted c1 EmptyString fs true _ H1); step.
    all: reflexivity.
  - rewrite line_read_cons. destruct Hst as [->| ->]; step.
    all: rewrite (records_quoted c1 EmptyString fs true _ H1); step.
    all: rewrite (IH c2 (fs ++ [c1]) START_FIELD true rest (or_intror eq_refl)
                    Hlim).
    all: by rewrite <- app_assoc.
Qed.

Lemma records_lines (rows : list (list string)) :
  Forall (fun row => row <> [] /\ forallb within_limit row = true) rows ->
  records parse_reset false (concat_lines (map line_read rows)) = (rows, None).
Proof.
  induction 1 as [|row rows [Hne Hlim] _ IH]; [reflexivity|].
  destruct row as [|c1 cs]; [done|]. cbn [map concat_lines].
  unfold parse_reset at 1.
  rewrite (records_row cs c1 [] START_RECORD false _ (or_introl eq_refl) Hlim).
  by rewrite IH.
Qed.

(** *** Line ends *)

Lemma free_of_app c s t :
  free_of c (s +:+ t) = free_of c s && free_of c t.
Proof. apply all_chars_app. Qed.

Lemma universal_newlines_free s rest :
  free_of carriage_return s = true ->
  universal_newlines (s +:+ rest) = s +:+ universal_newlines rest.
Proof.
  induction s as [|a s IH]; [done|]. simpl.
  intros [Ha Hs]%andb_true_iff. apply negb_true_iff in Ha.
  rewrite Ha. by rewrite IH.
Qed.

Lemma free_of_double_quotes s :
  free_of carriage_return s = true ->
  free_of carriage_return (double_quotes s) = true.
Proof.
  unfold free_of. induction s as [|a s IH]; [done|]. simpl.
  intros [Ha Hs]%andb_true_iff.
  destruct (Ascii.eqb_spec a dquote) as [->|_]; simpl; rewrite ?Ha, IH; done.
Qed.

Lemma free_of_quoted s :
  free_of carriage_return s = true ->
  free_of carriage_return (quoted s) = true.
Proof.
  intros H. unfold quoted.
  change (free_of carriage_return (String dquote ?s))
    with (free_of carriage_return s).
  by rewrite free_of_app, (free_of_double_quotes _ H).
Qed.

Lemma free_of_row cells :
  forallb (free_of carriage_return) cells = true ->
  free_of carriage_return (String.concat "," (map quoted cells)) = true.
Proof.
  induction cells as [|c1 [|c2 cs] IH]; [done| |].
  - simpl. intros [H _]%andb_true_iff. by apply free_of_quoted.
  - intros [H1 H2]%andb_true_iff.
    change (String.concat "," (map quoted (c1 :: c2 :: cs)))
      with (quoted c1 +:+ "," +:+ String.concat "," (map quoted (c2 :: cs))).
    by rewrite free_of_app, (free_of_quoted _ H1), free_of_app, (IH H2).
Qed.

Lemma universal_newlines_row cells rest :
  forallb (free_of carriage_return) cells = true ->
  universal_newlines (writerow cells +:+ rest) =
  line_read cells +:+ universal_newlines rest.
Proof.
  intros H%free_of_row. unfold writerow, line_read, lineterminator.
  rewrite !str_app_assoc. by rewrite (universal_newlines_free _ _ H).
Qed.

Lemma universal_newlines_rows (rows : list (list string)) :
  Forall (fun row => forallb (free_of carriage_return) row = true) rows ->
  universal_newlines (concat_lines (map writerow rows)) =
  concat_lines (map line_read rows).
Proof.
  induction 1 as [|row rows Hrow _ IH]; [done|]. cbn [map concat_lines].
  by rewrite (universal_newlines_row _ _ Hrow), IH.
Qed.

(** *** Splitting what was joined *)

Lemma split_free sep x : free_of sep x = true -> split sep x = [x].
Proof.
  induction x as [|c x IH]; [done|]. simpl.
  intros [Hc Hx]%andb_true_iff. apply negb_true_iff in Hc.
  by rewrite Hc, (IH Hx).
Qed.

Lemma split_app sep x r :
  free_of sep x = true ->
  split sep (x +:+ String sep r) = x :: split sep r.
Proof.
  induction x as [|c x IH]; simpl.
  - intros _. by rewrite Ascii.eqb_refl.
  - intros [Hc Hx]%andb_true_iff. apply negb_true_iff in Hc.
    by rewrite Hc, (IH Hx).
Qed.

Lemma split_concat sep (l : list string) :
  forallb (free_of sep) l = true ->
  split sep (String.concat (String sep EmptyString) l) = reread l.
Proof.
  induction l as [|x [|y l] IH]; [done| |].
  - simpl. intros [Hx _]%andb_true_iff. by apply split_free.
  - intros [Hx Hl]%andb_true_iff.
    change (String.concat (String sep EmptyString) (x :: y :: l))
      with (x +:+ String sep (String.concat (String sep EmptyString) (y :: l))).
    rewrite (split_app _ _ _ Hx). by rewrite (IH Hl).
Qed.

(** *** Records *)

Lemma to_dict_complete r : complete (to_dict r).
Proof.
  unfold complete, KEYS, to_dict.
  repeat (constructor; [by simplify_map_eq|]). constructor.
Qed.

Lemma record_cells_to_dict r :
  record_cells (to_dict r) =
  [f_filepath r; f_event_name r; f_title r;
   String.concat ";" (f_speakers r); String.concat ";" (f_segments r)].
Proof. unfold record_cells, field_of, to_dict. by simplify_map_eq. Qed.

Lemma load_row_to_dict r :
  forallb (free_of ";") (f_speakers r) = true ->
  forallb (free_of ";") (f_segments r) = true ->
  load_row (row_dict KEYS (record_cells (to_dict r)) ∅) =
  Ok (to_dict (after_round_trip r)).
Proof.
  intros Hsp Hsg. rewrite record_cells_to_dict. cbn [row_dict KEYS].
  unfold load_row, getitem. simplify_map_eq. cbn [str_split bind].
  simplify_map_eq. cbn [str_split bind].
  by rewrite (split_concat ";" _ Hsp), (split_concat ";" _ Hsg).
Qed.

Lemma storable_cells r :
  storable r = true ->
  forallb (free_of carriage_return) (record_cells (to_dict r)) = true /\
  forallb within_limit (record_cells (to_dict r)) = true /\
  forallb (free_of ";") (f_speakers r) = true /\
  forallb (free_of ";") (f_segments r) = true.
Proof.
  unfold storable, cell_ok. rewrite record_cells_to_dict. cbn [forallb].
  rewrite !andb_true_iff. tauto.
Qed.

Lemma dict_rows_records (ds : list dict) :
  dict_rows (KEYS :: map record_cells ds) =
  map (fun d => row_dict KEYS (record_cells d) ∅) ds.
Proof.
  unfold dict_rows.
  assert (filter (fun row : list string => row <> []) (map record_cells ds)
          = map record_cells ds) as ->.
  { induction ds as [|d ds IH]; [done|]. cbn [map].
    rewrite filter_cons_True by done. by rewrite IH. }
  by rewrite map_map.
Qed.

Lemma load_rows_entries (rs : list entry) : forall self0 : MetadataList,
  forallb storable rs = true ->
  load_rows self0
    (map (fun d => row_dict KEYS (record_cells d) ∅) (map to_dict rs)) None
  = (self0 ++ map (fun r => Some (to_dict (after_round_trip r))) rs, None).
Proof.
  induction rs as [|r rs IH]; intros self0; cbn [forallb map load_rows].
  - by rewrite app_nil_r.
  - intros [(_ & _ & Hsp & Hsg)%storable_cells Hrs]%andb_true_iff.
    rewrite (load_row_to_dict r Hsp Hsg). unfold add_item, Metadata.
    cbn [fst]. rewrite (IH _ Hrs). by rewrite <- app_assoc.
Qed.

Lemma csv_text_rows (ds : list dict) :
  csv_text ds = concat_lines (map writerow (KEYS :: map record_cells ds)).
Proof. unfold csv_text. cbn [map concat_lines]. by rewrite map_map. Qed.

Lemma rows_readable (rs : list entry) :
  forallb storable rs = true ->
  Forall (fun row => forallb (free_of carriage_return) row = true)
         (KEYS :: map record_cells (map to_dict rs)) /\
  Forall (fun row => row <> [] /\ forallb within_limit row = true)
         (KEYS :: map record_cells (map to_dict rs)).
Proof.
  intros H. split; (constructor; [done|]).
  - induction rs as [|r rs IH]; [constructor|].
    cbn [forallb] in H. apply andb_true_iff in H as [Hr Hrs].
    constructor; [by apply storable_cells|by apply IH].
  - induction rs as [|r rs IH]; [constructor|].
    cbn [forallb] in H. apply andb_true_iff in H as [Hr Hrs].
    constructor; [|by apply IH].
    split; [by rewrite record_cells_to_dict|by apply storable_cells].
Qed.

(** Reading back the text written for storable entries. *)
Lemma read_written (rs : list entry) (self0 : MetadataList)
    (fs : filesystem) (path : string) :
  forallb storable rs = true ->
  read_from_csv self0 (<[path := File (csv_text (map to_dict rs))]> fs) path
  = (self0 ++ map (fun r => Some (to_dict (after_round_trip r))) rs, None).
Proof.
  intros H. destruct (rows_readable rs H) as [Hcr Hlim].
  unfold read_from_csv, open_read. rewrite lookup_insert_eq.
  unfold rows_of, reader_rows.
  rewrite csv_text_rows, (universal_newlines_rows _ Hcr),
          (records_lines _ Hlim).
  cbn [fst snd]. rewrite dict_rows_records. by apply load_rows_entries.
Qed.


(** *** What can go wrong *)







(** *** Columns in any order, and columns beyond the five *)







End Reading.

(** ** The claims about persistence *)

Section Persistence.

Import Csv.

(** C1 (as stated) fails: a record whose only speaker is [A;B] comes back
    with the two speakers [A] and [B], though its sequence was not
    empty. *)
Lemma read_back_splits_speaker :
  read_from_csv [] (fst (write_to_csv [Some (to_dict joint_entry)] ∅ "m.csv"))
                "m.csv"
    = ([Some (to_dict split_entry)], None) /\
  to_dict split_entry <> to_dict joint_entry.
Proof. split; decide_by_compute. Qed.

(** C1 (as amended).  Take a collection whose non-empty records each hold
    exactly the five fields, three strings and two sequences of strings,
    with no [;] inside a speaker or a segment, no carriage return in any
    field, and no cell beyond the field limit of the [csv] reader.
    Writing it and reading the file back appends these records in order,
    each as it was, except that an empty speakers or segments sequence,
    written as an empty cell, comes back as the sequence holding one empty
    string. *)
Theorem write_then_read (self self0 : MetadataList) (rs : list entry)
    (fs : filesystem) (path : string) :
  records_of self = map to_dict rs ->
  forallb storable rs = true ->
  fs !! path <> Some Directory ->
  snd (write_to_csv self fs path) = None /\
  read_from_csv self0 (fst (write_to_csv self fs path)) path =
    (self0 ++ map (fun r => Some (to_dict (after_round_trip r))) rs, None).
Proof.
  intros Hself Hrs Hfs.
  assert (Hall : Forall complete (records_of self)).
  { rewrite Hself. clear. induction rs as [|r rs IH]; constructor;
      [apply to_dict_complete|done]. }
  rewrite (write_to_csv_closed_form _ _ _ Hall Hfs), Hself. cbn [fst snd].
  split; [done|]. by apply read_written.
Qed.

Lemma write_then_read_witness :
  records_of sample_collection = map to_dict sample_entries /\
  forallb storable sample_entries = true /\
  (∅ : filesystem) !! "m.csv" <> Some Directory /\
  snd (write_to_csv sample_collection ∅ "m.csv") = None /\
  read_from_csv [] (fst (write_to_csv sample_collection ∅ "m.csv")) "m.csv" =
    ([] ++ map (fun r => Some (to_dict (after_round_trip r))) sample_entries,
     None).
Proof.
  assert (H1 : records_of sample_collection = map to_dict sample_entries)
    by decide_by_compute.
  assert (H2 : forallb storable sample_entries = true)
    by (vm_compute; reflexivity).
  assert (H3 : (∅ : filesystem) !! "m.csv" <> Some Directory)
    by decide_by_compute.
  exact (conj H1 (conj H2 (conj H3
           (write_then_read sample_collection [] sample_entries ∅ "m.csv"
              H1 H2 H3)))).
Defined.



End Persistence.

(** ** The player *)

Section PlayerClaims.

Import Player.

Lemma count_app e (l1 l2 : list event) :
  count e (l1 ++ l2) = (count e l1 + count e l2)%nat.
Proof. apply count_occ_app. Qed.

Lemma count_body e (steps : list string) :
  (forall label, e <> BodyStep label) -> count e (map BodyStep steps) = 0%nat.
Proof.
  intros He. induction steps as [|x steps IH]; [done|].
  unfold count in *. cbn [map]. rewrite count_occ_cons_neq; [done|].
  intros H. by apply (He x).
Qed.

(** C9.  When [__enter__] succeeded, that is once the player is active,
    the [with] statement ends with [terminate] sent to the child and the
    sink closed, each exactly once and after everything else, whether the
    body ended normally or with an exception, which then goes on. *)
Theorem with_player_releases (sys : answers) (file : string)
    (steps : list string) (outcome : option exn) :
  devnull_opens sys = true -> vlc_spawns sys = true ->
  fst (with_player sys file steps outcome) =
    [SinkOpened; Spawned file] ++ map BodyStep steps ++
    [TerminateSent; SinkClosed] /\
  snd (with_player sys file steps outcome) = outcome /\
  count TerminateSent (fst (with_player sys file steps outcome)) = 1%nat /\
  count SinkClosed (fst (with_player sys file steps outcome)) = 1%nat.
Proof.
  intros Hopen Hspawn. unfold with_player, enter, exit, init.
  rewrite Hopen, Hspawn. cbn [path devnull vlc fst snd app].
  rewrite <- !app_assoc. cbn [app]. split_and!; [done..| |].
  - change (?a :: ?b :: ?l) with ([a; b] ++ l).
    rewrite !count_app, count_body by done. reflexivity.
  - change (?a :: ?b :: ?l) with ([a; b] ++ l).
    rewrite !count_app, count_body by done. reflexivity.
Qed.

Lemma with_player_releases_witness :
  devnull_opens (Answers true true) = true /\
  vlc_spawns (Answers true true) = true /\
  fst (with_player (Answers true true) "a.mp3" [] (Some (ValueError "stop")))
    = [SinkOpened; Spawned "a.mp3"; TerminateSent; SinkClosed] /\
  snd (with_player (Answers true true) "a.mp3" [] (Some (ValueError "stop")))
    = Some (ValueError "stop").
Proof.
  pose proof (with_player_releases (Answers true true) "a.mp3" []
                (Some (ValueError "stop")) eq_refl eq_refl) as (H1 & H2 & _).
  exact (conj eq_refl (conj eq_refl (conj H1 H2))).
Defined.

End PlayerClaims.

(** * Further properties of the code *)

(** ** Timestamps and segments *)

Section SegmentExtras.

#[local] Arguments String.append !_ _ / : simpl nomatch.

(** X1.  [timestamp_seconds] is [hours * 3600 + minutes * 60 + seconds]
    with every argument that is left out counted as zero; the test
    [if hours], false on [0] as on [None], changes nothing to that, and
    negative arguments are summed like the others.  On minutes and
    seconds below sixty it loses nothing: equal counts of seconds come
    from equal hours, minutes and seconds. *)
Theorem timestamp_seconds_sum :
  (forall seconds minutes hours : option Z,
     timestamp_seconds seconds minutes hours =
       int_get hours * 3600 + int_get minutes * 60 + int_get seconds) /\
  (forall h m s h' m' s' : Z,
     0 <= m < 60 -> 0 <= s < 60 -> 0 <= m' < 60 -> 0 <= s' < 60 ->
     timestamp_seconds (Some s) (Some m) (Some h) =
       timestamp_seconds (Some s') (Some m') (Some h') ->
     h = h' /\ m = m' /\ s = s').
Proof.
  split.
  - intros seconds minutes hours.
    unfold timestamp_seconds, int_truthy, int_get.
    destruct hours as [h|], minutes as [m|], seconds as [s|];
      repeat match goal with
             | |- context [?x =? 0] => destruct (Z.eqb_spec x 0)
             end; simpl; lia.
  - intros h m s h' m' s' Hm Hs Hm' Hs'.
    rewrite !timestamp_seconds_total. lia.
Qed.

Lemma digit_value_bounds c :
  is_digit c = true ->
  exists d, digit_value c = Some d /\ 0 <= d <= 9.
Proof.
  unfold is_digit, digit_value. intros H. rewrite H.
  apply andb_true_iff in H as [H1%N.leb_le H2%N.leb_le].
  eexists. split; [reflexivity|lia].
Qed.

Lemma digit_0_5_bounds c :
  is_0_5 c = true ->
  exists d, digit_value c = Some d /\ 0 <= d <= 5.
Proof.
  intros H. pose proof (is_0_5_digit _ H) as Hd.
  unfold is_digit, is_0_5, digit_value in *. rewrite Hd.
  apply andb_true_iff in H as [H1%N.leb_le H2%N.leb_le].
  eexists. split; [reflexivity|lia].
Qed.

Lemma hours_field_bounds h :
  hours_field h -> 0 <= field_value h <= 99.
Proof.
  destruct h as [x|]; [|simpl; lia].
  intros (a & b & -> & (da & Ea & Ha)%digit_value_bounds
                     & (db & Eb & Hb)%digit_value_bounds).
  unfold field_value. simpl. rewrite Ea, Eb. lia.
Qed.

Lemma sixty_field_bounds x :
  sixty_field x -> 0 <= field_value (Some x) <= 59.
Proof.
  intros (a & b & -> & (da & Ea & Ha)%digit_0_5_bounds
                     & (db & Eb & Hb)%digit_value_bounds).
  unfold field_value. simpl. rewrite Ea, Eb. lia.
Qed.

Lemma segment_value_bounds s g :
  segment_text s g ->
  0 <= fst (segment_value g) <= 359999 /\
  0 <= snd (segment_value g) <= 359999.
Proof.
  intros (t1 & w1 & sep & w2 & t2 & nl & h1 & m1 & s1 & h2 & m2 & s2 &
          _ & Ht1 & _ & _ & _ & Ht2 & _ & ->).
  destruct Ht1 as (_ & _ & _ & Hh1%hours_field_bounds & _ &
                   Hm1%sixty_field_bounds & _ & Hs1%sixty_field_bounds).
  destruct Ht2 as (_ & _ & _ & Hh2%hours_field_bounds & _ &
                   Hm2%sixty_field_bounds & _ & Hs2%sixty_field_bounds).
  cbn [segment_value fst snd]. lia.
Qed.

(** X2.  Whatever the text, a segment that [segment_seconds] returns
    starts at or after zero, ends at or after its start, and ends at most
    at 99:59:59, the largest timestamp the pattern can spell. *)
Theorem segment_seconds_bounds (s : string) (start end_ : Z) :
  segment_seconds s = Ok (start, end_) ->
  0 <= start /\ start <= end_ /\ end_ <= 359999.
Proof.
  intros H. destruct (segment_text_dec s) as [[g Hg]|Hn].
  - rewrite (segment_seconds_match _ _ Hg) in H.
    pose proof (segment_value_bounds _ _ Hg) as [Hst Hen].
    destruct (Z.ltb_spec (snd (segment_value g)) (fst (segment_value g)));
      [done|].
    injection H as H. rewrite H in *. cbn [fst snd] in *. lia.
  - by rewrite (segment_seconds_nomatch _ Hn) in H.
Qed.

Lemma segment_seconds_bounds_witness :
  segment_seconds "01:00:10 | 020030" = Ok (3610, 7230) /\
  0 <= 3610 /\ 3610 <= 7230 /\ 7230 <= 359999.
Proof.
  assert (H : segment_seconds "01:00:10 | 020030" = Ok (3610, 7230))
    by (vm_compute; reflexivity).
  exact (conj H (segment_seconds_bounds _ _ _ H)).
Defined.

Ltac div_bounds := Z.div_mod_to_equations; lia.

Lemma optional_mark b : optional ":" (mark b).
Proof. destruct b; [by right|by left]. Qed.

Lemma render_as_text f t :
  fits f t ->
  exists h, timestamp_text (render_as f t) h
              (two_digit (t / 60 mod 60)) (two_digit (t mod 60)) /\
            field_value h * 3600 +
            field_value (Some (two_digit (t / 60 mod 60))) * 60 +
            field_value (Some (two_digit (t mod 60))) = t.
Proof.
  intros [Ht Hfit].
  destruct (two_digit_sixty (t / 60 mod 60)) as [Hm Vm]; [div_bounds|].
  destruct (two_digit_sixty (t mod 60)) as [Hs Vs]; [div_bounds|].
  destruct (two_digit_hours (t / 3600)) as [Hh Vh]; [div_bounds|].
  unfold render_as. destruct (with_hours f) eqn:E.
  - exists (Some (two_digit (t / 3600))). split.
    + exists (mark (hours_colon f)), (mark (minutes_colon f)).
      split_and!; auto using optional_mark.
    + rewrite Vh, Vm, Vs. div_bounds.
  - exists None. split.
    + exists (mark (hours_colon f)), (mark (minutes_colon f)).
      split_and!; auto using optional_mark. done.
    + rewrite Vm, Vs. specialize (Hfit eq_refl). simpl. div_bounds.
Qed.

Lemma segment_seconds_rendered (f1 f2 : form) (a b : Z)
    (w1 w2 : string) (sep : ascii) :
  fits f1 a -> fits f2 b ->
  all_chars is_space w1 = true -> is_separator sep = true ->
  all_chars is_space w2 = true ->
  segment_seconds (render_as f1 a +:+ w1 +:+ String sep (w2 +:+ render_as f2 b))
  = if b <? a then Raise RangeError else Ok (a, b).
Proof.
  intros (h1 & Ht1 & V1)%render_as_text (h2 & Ht2 & V2)%render_as_text
         Hw1 Hsep Hw2.
  assert (Hg : segment_text
                 (render_as f1 a +:+ w1 +:+
                  String sep (w2 +:+ render_as f2 b))
                 [h1; Some (two_digit (a / 60 mod 60));
                  Some (two_digit (a mod 60));
                  h2; Some (two_digit (b / 60 mod 60));
                  Some (two_digit (b mod 60))]).
  { exists (render_as f1 a), w1, sep, w2, (render_as f2 b), EmptyString.
    eexists _, _, _, _, _, _.
    split_and!; [by rewrite str_app_nil_r|done..|by left|reflexivity]. }
  rewrite (segment_seconds_match _ _ Hg). cbn [segment_value fst snd].
  by rewrite V1, V2.
Qed.

(** X3.  The result of [segment_seconds] depends on the two timestamps
    alone.  However each one is written (hours shown or not when there
    are none, each colon present or not), whichever of the four
    separators is used and whatever white space surrounds it, the text is
    parsed to the pair of second counts when the end is not before the
    start, and raises the range error when it is. *)
Theorem segment_seconds_any_form (f1 f2 : form) (a b : Z)
    (w1 w2 : string) (sep : ascii) :
  fits f1 a -> fits f2 b ->
  all_chars is_space w1 = true -> is_separator sep = true ->
  all_chars is_space w2 = true ->
  segment_seconds (render_as f1 a +:+ w1 +:+ String sep (w2 +:+ render_as f2 b))
  = if b <? a then Raise RangeError else Ok (a, b).
Proof. apply segment_seconds_rendered. Qed.

Lemma segment_seconds_any_form_witness :
  fits (Form false false true) 75 /\ fits (Form true true false) 3725 /\
  segment_seconds "01:15  ; 01:0205" = Ok (75, 3725).
Proof.
  assert (H1 : fits (Form false false true) 75) by (split; [|intros _]; lia).
  assert (H2 : fits (Form true true false) 3725)
    by (split; [lia|intros [=]]).
  exact (conj H1 (conj H2
           (segment_seconds_any_form (Form false false true)
              (Form true true false) 75 3725 "  " " " ";"
              H1 H2 eq_refl eq_refl eq_refl))).
Defined.

Lemma timestamp_head_plain t h m s :
  timestamp_text t h m s ->
  exists c u, t = String c u /\ is_plain c = true.
Proof.
  intros (c1 & c2 & -> & Hh & Hc1 & (a & b & -> & Ha & Hb) & _).
  destruct h as [x|]; cbn [opt_text].
  - destruct Hh as (a' & b' & -> & Ha' & _). eexists _, _.
    split; [reflexivity|]. unfold is_plain. by rewrite Ha'.
  - destruct Hc1 as [->| ->]; cbn [String.append]; eexists _, _;
      (split; [reflexivity|]); [|done].
    unfold is_plain. by rewrite (is_0_5_digit _ Ha).
Qed.

Lemma timestamp_last t h m s :
  timestamp_text t h m s ->
  exists pre a b, t = pre +:+ String a (String b EmptyString) /\
                  is_digit b = true.
Proof.
  intros (c1 & c2 & -> & _ & _ & _ & _ & (a & b & -> & _ & Hb)).
  exists (opt_text h +:+ c1 +:+ m +:+ c2), a, b.
  by rewrite !str_app_assoc.
Qed.

Lemma segment_text_ends s g :
  segment_text s g ->
  last_is (fun c => is_digit c || Ascii.eqb c newline) s = true.
Proof.
  intros (t1 & w1 & sep & w2 & t2 & nl & h1 & m1 & s1 & h2 & m2 & s2 &
          -> & _ & _ & _ & _ & (pre & a & b & -> & Hb)%timestamp_last &
          Hnl & _).
  assert (E : t1 +:+ w1 +:+
              String sep
                (w2 +:+ (pre +:+ String a (String b EmptyString)) +:+ nl)
              = (t1 +:+ w1 +:+ String sep (w2 +:+ pre)) +:+
                String a (String b nl)).
  { rewrite !str_app_assoc. cbn [String.append].
    by rewrite !str_app_assoc. }
  rewrite E, last_is_app by done.
  destruct Hnl as [->| ->]; cbn [last_is]; [by rewrite Hb|done].
Qed.

(** X4.  The pattern is anchored at both ends.  A text whose first
    character is neither a digit nor a colon is a format error, so white
    space in front is not accepted, though it is around the separator;
    and so is a text whose last character is neither a digit nor a
    newline. *)
Theorem segment_seconds_anchored :
  (forall c s, is_plain c = false ->
     segment_seconds (String c s) = Raise (FormatError (String c s))) /\
  (forall s c, is_digit c = false -> c <> newline ->
     segment_seconds (s +:+ String c EmptyString)
       = Raise (FormatError (s +:+ String c EmptyString))).
Proof.
  split.
  - intros c s Hc. apply segment_seconds_nomatch.
    intros (g & t1 & w1 & sep & w2 & t2 & nl & h1 & m1 & s1 & h2 & m2 & s2 &
            E & (c' & u & -> & Hc')%timestamp_head_plain & _).
    cbn [String.append] in E. injection E as <- _. congruence.
  - intros s c Hd Hn. apply segment_seconds_nomatch.
    intros (g & Hg%segment_text_ends).
    rewrite last_is_app in Hg by done. cbn [last_is] in Hg.
    apply Ascii.eqb_neq in Hn. by rewrite Hd, Hn in Hg.
Qed.

End SegmentExtras.

(** ** Lookup, insertion and the tag view *)

Section CollectionExtras.

(** X5.  What [get_item] answers, for any collection.  A record it
    returns is a non-empty record of the collection that holds the sought
    value under the key, and no non-empty record before it does; when it
    returns [None] every non-empty record holds the key with another
    value; and the only exception it raises is [KeyError] for the key,
    which means that some non-empty record lacks it. *)
Theorem get_item_answer (self : MetadataList) (key : option string)
    (X : value) :
  match get_item self key X with
  | Ok (Some d) =>
      exists before after,
        records_of self = before ++ d :: after /\
        d !! key = Some X /\
        Forall (fun d' : dict => exists v, d' !! key = Some v /\ v <> X) before
  | Ok None =>
      Forall (fun d' : dict => exists v, d' !! key = Some v /\ v <> X)
             (records_of self)
  | Raise e =>
      e = KeyError key /\
      Exists (fun d' : dict => d' !! key = None) (records_of self)
  end.
Proof.
  induction self as [|item self IH]; [by constructor|]. cbn [records_of].
  destruct (item_truthy item) eqn:Ht.
  - rewrite get_item_truthy by done. unfold getitem.
    destruct (default ∅ item !! key) as [v|] eqn:Hv; cbn [bind].
    + destruct (decide (v = X)) as [->|Hne].
      * rewrite bool_decide_eq_true_2 by done.
        exists [], (records_of self). by repeat split.
      * rewrite bool_decide_eq_false_2 by done.
        destruct (get_item self key X) as [[d|]|e].
        -- destruct IH as (before & after & -> & Hd & Hall).
           exists (default ∅ item :: before), after.
           split_and!; [done|done|]. constructor; eauto.
        -- constructor; eauto.
        -- destruct IH as [-> Hex]. split; [done|by right].
    + split; [done|by left].
  - rewrite get_item_falsy by done. exact IH.
Qed.

(** X6.  Looking up after adding.  A record that was found before
    [add_item] is still the one found after it, and so is a failure; when
    nothing was found, the added record is found exactly if it holds the
    sought value under the key, and the lookup raises [KeyError] if the
    added record is not empty and lacks the key. *)
Theorem get_item_after_add (self : MetadataList) (data : dict)
    (key : option string) (X : value) :
  get_item (fst (add_item self data)) key X =
    match get_item self key X with
    | Ok None =>
        if dict_truthy data then
          match data !! key with
          | Some v => if bool_decide (v = X) then Ok (Some data) else Ok None
          | None => Raise (KeyError key)
          end
        else Ok None
    | found => found
    end.
Proof.
  unfold add_item, Metadata. cbn [fst].
  induction self as [|item self IH].
  - simpl. destruct (dict_truthy data); [|done]. unfold getitem.
    destruct (data !! key) as [v|]; [|done]. cbn [bind]. by case_bool_decide.
  - cbn [app]. destruct (item_truthy item) eqn:Ht.
    + rewrite !get_item_truthy by done.
      destruct (getitem (default ∅ item) key) as [v|e]; [|done].
      cbn [bind]. case_bool_decide; [done|]. exact IH.
    + rewrite !get_item_falsy by done. exact IH.
Qed.

Lemma toId3_to_dict (r : entry) : toId3 (to_dict r) = Ok (tags_of r).
Proof. unfold toId3, getitem, to_dict, tags_of. by simplify_map_eq. Qed.

Lemma tags_of_after_round_trip (r : entry) :
  tags_of (after_round_trip r) = tags_of r.
Proof.
  unfold tags_of, after_round_trip. cbn [f_event_name f_speakers f_title].
  by destruct (f_speakers r).
Qed.

(** X7.  The tags survive the file.  Take records with the five fields
    that hold no [;] inside a speaker or a segment, no carriage return,
    and no cell beyond the field limit of the reader.  After
    [write_to_csv] and [read_from_csv], [toId3] gives for each record read
    back what it gave for the record written: its title, its speakers
    joined with a comma and a space as the artist, and its event name as
    the album.  An empty speakers list comes back as the list of one
    empty string, and the artist is empty for both. *)
Theorem toId3_round_trip (self self0 : MetadataList) (rs : list entry)
    (fs : filesystem) (path : string) :
  records_of self = map to_dict rs ->
  forallb storable rs = true ->
  fs !! path <> Some Directory ->
  exists back : list dict,
    read_from_csv self0 (fst (write_to_csv self fs path)) path =
      (self0 ++ map Some back, None) /\
    Forall2 (fun r d => toId3 (to_dict r) = Ok (tags_of r) /\
                        toId3 d = Ok (tags_of r)) rs back.
Proof.
  intros Hself Hrs Hfs.
  assert (Hall : Forall complete (records_of self)).
  { rewrite Hself. clear. induction rs as [|r rs IH]; constructor;
      [apply to_dict_complete|done]. }
  exists (map (fun r => to_dict (after_round_trip r)) rs).
  rewrite (write_to_csv_closed_form _ _ _ Hall Hfs), Hself. cbn [fst].
  rewrite (read_written rs self0 fs path Hrs), map_map. split; [done|].
  clear. induction rs as [|r rs IH]; cbn [map]; constructor; [|exact IH].
  split; [apply toId3_to_dict|].
  by rewrite toId3_to_dict, tags_of_after_round_trip.
Qed.

Lemma toId3_round_trip_witness :
  records_of sample_collection = map to_dict sample_entries /\
  forallb storable sample_entries = true /\
  (∅ : filesystem) !! "m.csv" <> Some Directory /\
  exists back : list dict,
    read_from_csv [] (fst (write_to_csv sample_collection ∅ "m.csv")) "m.csv"
      = ([] ++ map Some back, None) /\
    Forall2 (fun r d => toId3 (to_dict r) = Ok (tags_of r) /\
                        toId3 d = Ok (tags_of r)) sample_entries back.
Proof.
  assert (H1 : records_of sample_collection = map to_dict sample_entries)
    by decide_by_compute.
  assert (H2 : forallb storable sample_entries = true)
    by (vm_compute; reflexivity).
  assert (H3 : (∅ : filesystem) !! "m.csv" <> Some Directory)
    by decide_by_compute.
  exact (conj H1 (conj H2 (conj H3
           (toId3_round_trip sample_collection [] sample_entries ∅ "m.csv"
              H1 H2 H3)))).
Defined.

(** X8.  [toId3] needs the title, the speakers and the event name, and
    asks for them in that order: on a record that lacks one of them it
    raises [KeyError] for the first one missing, and it never looks at
    the file path or the segments. *)
Theorem toId3_missing (self : dict) :
  (self !! Some "title" = None ->
   toId3 self = Raise (KeyError (Some "title"))) /\
  (is_Some (self !! Some "title") -> self !! Some "speakers" = None ->
   toId3 self = Raise (KeyError (Some "speakers"))) /\
  (forall v w, toId3 (<[Some "filepath" := v]> (<[Some "segments" := w]> self))
               = toId3 self) /\
  (forall l, is_Some (self !! Some "title") ->
             self !! Some "speakers" = Some (VList l) ->
             self !! Some "event_name" = None ->
             toId3 self = Raise (KeyError (Some "event_name"))).
Proof.
  unfold toId3, getitem. split_and!.
  - by intros ->.
  - by intros [t ->] ->.
  - intros v w. by simplify_map_eq.
  - by intros l [t ->] -> ->.
Qed.

End CollectionExtras.

(** ** Writing and reading, whatever the collection *)

Section PersistenceExtras.

#[local] Arguments String.append !_ _ / : simpl nomatch.

Import Csv.

(** A record lacks none of the five fields and is complete, or building
    its row raises [KeyError] for the first one it lacks. *)
Lemma csv_row_first (d : dict) :
  match first_missing d with
  | None => complete d
  | Some k => csv_row d = Raise (KeyError (Some k))
  end.
Proof.
  unfold first_missing, KEYS, csv_row, getitem. cbn [List.find].
  destruct (d !! Some "filepath") as [fp|] eqn:Hfp; cycle 1.
  { by rewrite bool_decide_eq_true_2. }
  rewrite bool_decide_eq_false_2 by done.
  destruct (d !! Some "event_name") as [ev|] eqn:Hev; cycle 1.
  { by rewrite bool_decide_eq_true_2. }
  rewrite bool_decide_eq_false_2 by done.
  destruct (d !! Some "title") as [ti|] eqn:Hti; cycle 1.
  { by rewrite bool_decide_eq_true_2. }
  rewrite bool_decide_eq_false_2 by done.
  destruct (d !! Some "speakers") as [sp|] eqn:Hsp; cycle 1.
  { by rewrite bool_decide_eq_true_2. }
  rewrite bool_decide_eq_false_2 by done.
  destruct (d !! Some "segments") as [sg|] eqn:Hsg; cycle 1.
  { rewrite bool_decide_eq_true_2 by done. cbn [bind].
    destruct (value_truthy sp) eqn:Tsp; [|done].
    by rewrite (join_truthy _ Tsp). }
  rewrite bool_decide_eq_false_2 by done.
  unfold complete, KEYS. rewrite !Forall_cons, Hfp, Hev, Hti, Hsp, Hsg.
  split_and!; eauto.
Qed.

Lemma mapM_csv_row_first (ds : list dict) :
  Forall complete ds \/
  exists before d after k,
    ds = before ++ d :: after /\ Forall complete before /\
    first_missing d = Some k /\
    mapM csv_row ds = Raise (KeyError (Some k)).
Proof.
  induction ds as [|d ds IH]; [by left|].
  pose proof (csv_row_first d) as Hd.
  destruct (first_missing d) as [k|] eqn:Hk.
  - right. exists [], d, ds, k. split_and!; [done..|].
    cbn [mapM]. by rewrite Hd.
  - destruct IH as [Hall|(before & d' & after & k & -> & Hbefore & Hk' & Hraise)].
    + left. by constructor.
    + right. exists (d :: before), d', after, k.
      split_and!; [done|by constructor|done|].
      destruct (csv_row_cells d Hd) as (row & _ & Hrow & _).
      cbn [mapM]. by rewrite Hrow, Hraise.
Qed.

(** X9.  An incomplete record stops [write_to_csv] before the destination
    is opened.  Either every non-empty record holds the five fields, or,
    whatever the destination and whatever the files, the write raises
    [KeyError] for the first field that the first incomplete record
    lacks, in the order filepath, event_name, title, speakers, segments,
    and leaves every file as it was, the destination included. *)
Theorem write_to_csv_failure (self : MetadataList) :
  Forall complete (records_of self) \/
  exists before d after k,
    records_of self = before ++ d :: after /\ Forall complete before /\
    first_missing d = Some k /\
    forall (fs : filesystem) (output_csv : string),
      write_to_csv self fs output_csv = (fs, Some (KeyError (Some k))).
Proof.
  destruct (mapM_csv_row_first (records_of self))
    as [Hall|(before & d & after & k & E & Hbefore & Hk & Hraise)];
    [by left|right].
  exists before, d, after, k. split_and!; [done..|].
  intros fs output_csv. unfold write_to_csv.
  by rewrite build_rows_records, Hraise.
Qed.


Lemma load_rows_app (rows : list dict) :
  forall (self : MetadataList) err,
    load_rows self rows err =
      (self ++ fst (load_rows [] rows err), snd (load_rows [] rows err)).
Proof.
  induction rows as [|row rows IH]; intros self err; cbn [load_rows].
  - by rewrite app_nil_r.
  - destruct (load_row row) as [row'|e]; [|by rewrite app_nil_r].
    unfold add_item, Metadata. cbn [fst app].
    rewrite (IH (self ++ [Some row'])), (IH [Some row']). cbn [fst snd].
    by rewrite <- app_assoc.
Qed.

(** X11.  [read_from_csv] only appends: what the collection held stays in
    front, in order, and what is added, like the outcome, does not depend
    on it.  This holds for a read that fails as well, so the rows loaded
    before the failure stay in the collection. *)
Theorem read_from_csv_appends (self : MetadataList) (fs : filesystem)
    (input_csv : string) :
  read_from_csv self fs input_csv =
    (self ++ fst (read_from_csv [] fs input_csv),
     snd (read_from_csv [] fs input_csv)).
Proof.
  unfold read_from_csv.
  destruct (open_read fs input_csv) as [[text fault]|e].
  - apply load_rows_app.
  - cbn [fst snd]. by rewrite app_nil_r.
Qed.

Lemma split_not_nil sep s : split sep s <> [].
Proof.
  destruct s as [|c s]; [done|]. simpl.
  destruct (Ascii.eqb c sep); [done|]. by destruct (split sep s).
Qed.

Lemma split_items_free sep s : forallb (free_of sep) (split sep s) = true.
Proof.
  induction s as [|c s IH]; [done|]. simpl.
  destruct (Ascii.eqb c sep) eqn:E; [exact IH|].
  unfold free_of in *.
  destruct (split sep s) as [|h r]; simpl in *; rewrite E; [done|].
  exact IH.
Qed.

Lemma load_row_shape (row d : dict) :
  load_row row = Ok d ->
  split_cell (d !! Some "speakers") /\ split_cell (d !! Some "segments").
Proof.
  unfold load_row, getitem, str_split, split_cell.
  destruct (row !! Some "speakers") as [[|sp|]|] eqn:Hsp; try done.
  cbn [bind]. rewrite lookup_insert_ne by done.
  destruct (row !! Some "segments") as [[|sg|]|] eqn:Hsg; try done.
  cbn [bind]. intros [= <-]. rewrite lookup_insert_eq.
  rewrite lookup_insert_ne, lookup_insert_eq by done.
  split; eexists; (split; [done|]);
    (split; [apply split_not_nil|apply split_items_free]).
Qed.

Lemma load_rows_shape (P : option dict -> Prop) (rows : list dict) :
  (forall row d, load_row row = Ok d -> P (Some d)) ->
  forall (self : MetadataList) err,
    Forall P self -> Forall P (fst (load_rows self rows err)).
Proof.
  intros HP. induction rows as [|row rows IH]; intros self err Hself;
    cbn [load_rows]; [done|].
  destruct (load_row row) as [row'|e] eqn:E; [|done].
  apply IH. unfold add_item, Metadata. cbn [fst].
  apply Forall_app. split; [done|]. constructor; [|done]. by apply (HP row).
Qed.

(** X12.  Every record that [read_from_csv] adds, whatever the source
    holds, is a dictionary with its speakers and its segments as lists
    that are never empty and whose items hold no [;]: an empty cell gives
    the list of one empty string, not the empty list. *)
Theorem read_from_csv_sequences (fs : filesystem) (input_csv : string) :
  Forall (fun item : option dict =>
            exists d, item = Some d /\
                      split_cell (d !! Some "speakers") /\
                      split_cell (d !! Some "segments"))
         (fst (read_from_csv [] fs input_csv)).
Proof.
  unfold read_from_csv.
  destruct (open_read fs input_csv) as [[text fault]|e]; [|by constructor].
  apply load_rows_shape; [|by constructor].
  intros row d Hd. exists d. split; [done|]. by apply (load_row_shape row).
Qed.

End PersistenceExtras.

(** ** The round trip without conditions on the fields *)

Section RoundTripExtras.

#[local] Arguments String.append !_ _ / : simpl nomatch.
#[local] Arguments within_limit : simpl never.

Import Csv.

Lemma string_ind2 (P : string -> Prop) :
  P EmptyString ->
  (forall a, P (String a EmptyString)) ->
  (forall a b s, P s -> P (String b s) -> P (String a (String b s))) ->
  forall s, P s.
Proof.
  intros H0 H1 H2 s. enough (P s /\ forall a, P (String a s)) by tauto.
  induction s as [|b s [IHs IHbs]]; split; auto.
Qed.

Lemma un_keep a s :
  Ascii.eqb a carriage_return = false ->
  universal_newlines (String a s) = String a (universal_newlines s).
Proof. intros H. simpl. by rewrite H. Qed.

Lemma un_cr_end :
  universal_newlines (String carriage_return EmptyString)
  = String newline EmptyString.
Proof. reflexivity. Qed.

Lemma un_cr_lf s :
  universal_newlines (String carriage_return (String newline s))
  = String newline (universal_newlines s).
Proof. reflexivity. Qed.

Lemma un_cr_other b s :
  Ascii.eqb b newline = false ->
  universal_newlines (String carriage_return (String b s))
  = String newline (universal_newlines (String b s)).
Proof.
  intros H. change (universal_newlines (String carriage_return (String b s)))
    with (if Ascii.eqb b newline
          then String newline (universal_newlines s)
          else String newline (universal_newlines (String b s))).
  by rewrite H.
Qed.

Lemma double_quotes_cons a s :
  double_quotes (String a s) =
    if Ascii.eqb a dquote then String dquote (String dquote (double_quotes s))
    else String a (double_quotes s).
Proof. reflexivity. Qed.

(** Line ends are translated inside a quoted cell as anywhere else, and
    the quotes around it keep them apart from what follows. *)
Lemma un_quoted_content (rest c : string) :
  universal_newlines (double_quotes c +:+ String dquote rest) =
  double_quotes (universal_newlines c)
    +:+ String dquote (universal_newlines rest).
Proof.
  induction c as [|a|a b s IHs IHbs] using string_ind2.
  - change (double_quotes EmptyString +:+ String dquote rest)
      with (String dquote rest).
    by rewrite un_keep.
  - destruct (Ascii.eqb_spec a carriage_return) as [->|Hcr].
    + rewrite un_cr_end. cbn [double_quotes]. simpl Ascii.eqb. cbv iota.
      cbn [String.append]. rewrite un_cr_other by done.
      by rewrite un_keep.
    + apply Ascii.eqb_neq in Hcr. rewrite (un_keep a) by done.
      rewrite !double_quotes_cons.
      destruct (Ascii.eqb a dquote); cbn [String.append];
        rewrite ?un_keep by done; done.
  - destruct (Ascii.eqb_spec a carriage_return) as [->|Hcr].
    + destruct (Ascii.eqb_spec b newline) as [->|Hlf].
      * rewrite un_cr_lf. rewrite !double_quotes_cons. simpl Ascii.eqb.
        cbv iota. cbn [String.append]. rewrite un_cr_lf. by rewrite IHs.
      * apply Ascii.eqb_neq in Hlf. rewrite (un_cr_other b) by done.
        rewrite (double_quotes_cons carriage_return).
        rewrite (double_quotes_cons newline). simpl Ascii.eqb. cbv iota.
        cbn [String.append]. rewrite <- IHbs.
        rewrite (double_quotes_cons b).
        destruct (Ascii.eqb b dquote); cbn [String.append];
          by rewrite un_cr_other.
    + apply Ascii.eqb_neq in Hcr. rewrite (un_keep a) by done.
      rewrite !(double_quotes_cons a).
      destruct (Ascii.eqb a dquote); cbn [String.append];
        rewrite ?un_keep by done; by rewrite IHbs.
Qed.

Lemma concat_cons (sep x : string) (y : string) (l : list string) :
  String.concat sep (x :: y :: l) = x +:+ sep +:+ String.concat sep (y :: l).
Proof. reflexivity. Qed.

Lemma un_row (cells : list string) (rest : string) :
  universal_newlines (writerow cells +:+ rest) =
  line_read (map cell_read cells) +:+ universal_newlines rest.
Proof.
  unfold cell_read.
  induction cells as [|c1 [|c2 cs] IH].
  - reflexivity.
  - cbn [map]. rewrite line_read_one.
    change (writerow [c1] +:+ rest)
      with ((quoted c1 +:+ lineterminator) +:+ rest).
    unfold quoted, lineterminator. cbn [String.append].
    rewrite !str_app_assoc. cbn [String.append].
    rewrite un_keep by done. rewrite un_quoted_content.
    by rewrite un_cr_lf.
  - cbn [map] in *. rewrite line_read_cons, <- IH.
    unfold writerow. cbn [map]. rewrite concat_cons. unfold quoted at 1.
    repeat (progress (rewrite ?str_app_assoc; cbn [String.append])).
    rewrite un_keep by done. rewrite un_quoted_content.
    by rewrite un_keep.
Qed.

Lemma un_rows (rows : list (list string)) :
  universal_newlines (concat_lines (map writerow rows)) =
  concat_lines (map line_read (map (map cell_read) rows)).
Proof.
  induction rows as [|row rows IH]; [done|]. cbn [map concat_lines].
  by rewrite un_row, IH.
Qed.

Lemma un_length (s : string) :
  (String.length (universal_newlines s) <= String.length s)%nat.
Proof.
  induction s as [|a|a b s IHs IHbs] using string_ind2; [done| |].
  - destruct (Ascii.eqb_spec a carriage_return) as [->|Hcr]; [done|].
    apply Ascii.eqb_neq in Hcr. by rewrite un_keep.
  - destruct (Ascii.eqb_spec a carriage_return) as [->|Hcr].
    + destruct (Ascii.eqb_spec b newline) as [->|Hlf].
      * rewrite un_cr_lf. cbn [String.length]. lia.
      * apply Ascii.eqb_neq in Hlf. rewrite un_cr_other by done.
        cbn [String.length] in *. lia.
    + apply Ascii.eqb_neq in Hcr. rewrite un_keep by done.
      cbn [String.length] in *. lia.
Qed.

Lemma cell_read_within (s : string) :
  within_limit s = true -> within_limit (cell_read s) = true.
Proof.
  unfold within_limit, cell_read. intros H%N.leb_le. apply N.leb_le.
  pose proof (un_length s). lia.
Qed.

Lemma cell_read_free (s : string) :
  free_of carriage_return (cell_read s) = true.
Proof.
  unfold cell_read.
  induction s as [|a|a b s IHs IHbs] using string_ind2; [done| |].
  - destruct (Ascii.eqb_spec a carriage_return) as [->|Hcr]; [done|].
    apply Ascii.eqb_neq in Hcr. rewrite un_keep by done.
    unfold free_of. simpl. by rewrite Hcr.
  - destruct (Ascii.eqb_spec a carriage_return) as [->|Hcr].
    + destruct (Ascii.eqb_spec b newline) as [->|Hlf].
      * rewrite un_cr_lf. exact IHs.
      * apply Ascii.eqb_neq in Hlf. rewrite un_cr_other by done.
        exact IHbs.
    + apply Ascii.eqb_neq in Hcr. rewrite un_keep by done.
      unfold free_of in *. cbn [all_chars]. by rewrite Hcr, IHbs.
Qed.

Lemma cell_read_fixed (s : string) :
  free_of carriage_return s = true -> cell_read s = s.
Proof.
  intros H. unfold cell_read.
  rewrite <- (str_app_nil_r s) at 1.
  rewrite (universal_newlines_free _ _ H). apply str_app_nil_r.
Qed.

Lemma cell_read_twice (s : string) : cell_read (cell_read s) = cell_read s.
Proof. apply cell_read_fixed, cell_read_free. Qed.

(** Joining what was split gives the text back. *)
Lemma concat_split (sep : ascii) (s : string) :
  String.concat (String sep EmptyString) (split sep s) = s.
Proof.
  induction s as [|c s IH]; [done|]. cbn [split].
  destruct (Ascii.eqb_spec c sep) as [->|Hc].
  - pose proof (split_not_nil sep s) as Hne.
    destruct (split sep s) as [|h r]; [done|].
    rewrite concat_cons, IH. reflexivity.
  - pose proof (split_not_nil sep s) as Hne.
    destruct (split sep s) as [|h [|y r]]; [done|..].
    + cbn [String.concat] in *. by rewrite IH.
    + rewrite concat_cons in IH. rewrite concat_cons.
      cbn [String.append] in *. by rewrite IH.
Qed.

Lemma load_row_cells (r : entry) :
  load_row (row_dict KEYS (map cell_read (record_cells (to_dict r))) ∅) =
  Ok (to_dict (read_back r)).
Proof.
  rewrite record_cells_to_dict. cbn [row_dict KEYS map].
  unfold load_row, getitem. simplify_map_eq. cbn [str_split bind].
  simplify_map_eq. cbn [str_split bind]. reflexivity.
Qed.

Lemma dict_rows_cells (rows : list (list string)) :
  Forall (fun row => row <> []) rows ->
  dict_rows (KEYS :: rows) = map (fun row => row_dict KEYS row ∅) rows.
Proof.
  intros H. unfold dict_rows. f_equal.
  induction H as [|row rows Hrow _ IH]; [done|].
  rewrite filter_cons_True by done. by rewrite IH.
Qed.

Lemma load_rows_cells (rs : list entry) (err : option exn) :
  forall self0 : MetadataList,
  load_rows self0
    (map (fun row => row_dict KEYS row ∅)
         (map (map cell_read) (map record_cells (map to_dict rs)))) err
  = (self0 ++ map (fun r => Some (to_dict (read_back r))) rs, err).
Proof.
  induction rs as [|r rs IH]; intros self0; cbn [map load_rows].
  - by rewrite app_nil_r.
  - rewrite (load_row_cells r). unfold add_item, Metadata. cbn [fst].
    rewrite IH. by rewrite <- app_assoc.
Qed.

Lemma readable_cells (r : entry) :
  readable r = true ->
  forallb within_limit (map cell_read (record_cells (to_dict r))) = true.
Proof.
  unfold readable. rewrite record_cells_to_dict. cbn [map forallb].
  rewrite !andb_true_iff. intros ((((H1 & H2) & H3) & H4) & H5).
  split_and!; auto using cell_read_within.
Qed.

Lemma read_written_cells (rs : list entry) (self0 : MetadataList)
    (fs : filesystem) (path : string) :
  forallb readable rs = true ->
  read_from_csv self0 (<[path := File (csv_text (map to_dict rs))]> fs) path
  = (self0 ++ map (fun r => Some (to_dict (read_back r))) rs, None).
Proof.
  intros H. unfold read_from_csv, open_read. rewrite lookup_insert_eq.
  unfold rows_of, reader_rows. rewrite csv_text_rows, un_rows.
  rewrite records_lines.
  - cbn [fst snd map]. rewrite dict_rows_cells; [apply load_rows_cells|].
    clear. induction rs as [|r rs IH]; constructor; [|exact IH].
    by rewrite record_cells_to_dict.
  - cbn [map]. constructor; [split; [done|by vm_compute]|].
    induction rs as [|r rs IH]; [constructor|].
    cbn [forallb] in H. apply andb_true_iff in H as [Hr Hrs].
    cbn [map]. constructor; [|by apply IH].
    split; [by rewrite record_cells_to_dict|by apply readable_cells].
Qed.

Lemma records_of_entries (rs : list entry) :
  records_of (map (fun r => Some (to_dict r)) rs) = map to_dict rs.
Proof.
  induction rs as [|r rs IH]; [done|]. cbn [map records_of].
  assert (item_truthy (Some (to_dict r)) = true) as ->.
  { unfold item_truthy, dict_truthy. rewrite bool_decide_eq_false_2; [done|].
    intros E. apply (f_equal (fun d : dict => d !! Some "filepath")) in E.
    unfold to_dict in E. by simplify_map_eq. }
  cbn [default]. by rewrite IH.
Qed.

Lemma entries_complete (rs : list entry) : Forall complete (map to_dict rs).
Proof.
  induction rs as [|r rs IH]; constructor; [apply to_dict_complete|done].
Qed.

(** X13.  The round trip of any records with the five fields whose cells
    the reader can hold.  Writing them and reading the file back always
    succeeds, and each record comes back with the line ends of its
    strings translated ([\r\n] and a lone [\r] to [\n]: the file is read
    without [newline='']) and with each sequence joined with [;], read as
    one cell and split at every [;] again.  Nothing else changes, quotes
    and commas and line feeds included. *)
Theorem round_trip_law (self self0 : MetadataList) (rs : list entry)
    (fs : filesystem) (path : string) :
  records_of self = map to_dict rs ->
  forallb readable rs = true ->
  fs !! path <> Some Directory ->
  snd (write_to_csv self fs path) = None /\
  read_from_csv self0 (fst (write_to_csv self fs path)) path =
    (self0 ++ map (fun r => Some (to_dict (read_back r))) rs, None).
Proof.
  intros Hself Hrs Hfs.
  assert (Hall : Forall complete (records_of self))
    by (rewrite Hself; apply entries_complete).
  rewrite (write_to_csv_closed_form _ _ _ Hall Hfs), Hself. cbn [fst snd].
  split; [done|]. by apply read_written_cells.
Qed.

Lemma round_trip_law_witness :
  records_of [Some (to_dict awkward_entry)] = map to_dict [awkward_entry] /\
  forallb readable [awkward_entry] = true /\
  (∅ : filesystem) !! "m.csv" <> Some Directory /\
  snd (write_to_csv [Some (to_dict awkward_entry)] ∅ "m.csv") = None /\
  read_from_csv [] (fst (write_to_csv [Some (to_dict awkward_entry)] ∅
                                      "m.csv")) "m.csv" =
    ([] ++ map (fun r => Some (to_dict (read_back r))) [awkward_entry], None).
Proof.
  assert (H1 : records_of [Some (to_dict awkward_entry)]
               = map to_dict [awkward_entry]) by decide_by_compute.
  assert (H2 : forallb readable [awkward_entry] = true)
    by (vm_compute; reflexivity).
  assert (H3 : (∅ : filesystem) !! "m.csv" <> Some Directory)
    by decide_by_compute.
  exact (conj H1 (conj H2 (conj H3
           (round_trip_law [Some (to_dict awkward_entry)] [] [awkward_entry]
              ∅ "m.csv" H1 H2 H3)))).
Defined.

Lemma read_back_twice (r : entry) : read_back (read_back r) = read_back r.
Proof.
  unfold read_back. cbn [f_filepath f_event_name f_title f_speakers f_segments].
  by rewrite !concat_split, !cell_read_twice.
Qed.

Lemma read_back_readable (r : entry) :
  readable r = true -> readable (read_back r) = true.
Proof.
  unfold readable, read_back.
  cbn [f_filepath f_event_name f_title f_speakers f_segments].
  rewrite !concat_split, !andb_true_iff.
  intros ((((H1 & H2) & H3) & H4) & H5).
  split_and!; auto using cell_read_within.
Qed.

(** X14.  One round trip is enough: records that were read back from the
    file are written and read back exactly as they are. *)
Theorem round_trip_stable (self0 : MetadataList) (rs : list entry)
    (fs : filesystem) (path : string) :
  forallb readable rs = true ->
  fs !! path <> Some Directory ->
  read_from_csv self0
    (fst (write_to_csv (map (fun r => Some (to_dict (read_back r))) rs)
                       fs path)) path =
    (self0 ++ map (fun r => Some (to_dict (read_back r))) rs, None).
Proof.
  intros Hrs Hfs.
  pose proof (records_of_entries (map read_back rs)) as Hrec.
  rewrite map_map in Hrec.
  assert (Hall : Forall complete
            (records_of (map (fun r => Some (to_dict (read_back r))) rs)))
    by (rewrite Hrec; apply entries_complete).
  rewrite (write_to_csv_closed_form _ _ _ Hall Hfs), Hrec. cbn [fst].
  rewrite read_written_cells.
  - rewrite map_map. f_equal. f_equal. apply map_ext. intros r.
    by rewrite read_back_twice.
  - clear -Hrs. induction rs as [|r rs IH]; [done|].
    cbn [forallb map] in *. apply andb_true_iff in Hrs as [Hr Hrs].
    by rewrite (read_back_readable _ Hr), IH.
Qed.

Lemma round_trip_stable_witness :
  forallb readable [awkward_entry] = true /\
  (∅ : filesystem) !! "m.csv" <> Some Directory /\
  read_from_csv []
    (fst (write_to_csv
            (map (fun r => Some (to_dict (read_back r))) [awkward_entry])
            ∅ "m.csv")) "m.csv" =
    ([] ++ map (fun r => Some (to_dict (read_back r))) [awkward_entry], None).
Proof.
  assert (H2 : forallb readable [awkward_entry] = true)
    by (vm_compute; reflexivity).
  assert (H3 : (∅ : filesystem) !! "m.csv" <> Some Directory)
    by decide_by_compute.
  exact (conj H2 (conj H3
           (round_trip_stable [] [awkward_entry] ∅ "m.csv" H2 H3))).
Defined.

End RoundTripExtras.

(** ** Segments in the file *)

Section SegmentsInFile.

#[local] Arguments String.append !_ _ / : simpl nomatch.

Lemma plain_facts c :
  is_plain c = true ->
  is_separator c = false /\ Ascii.eqb c carriage_return = false.
Proof.
  revert c. intros c; pattern c; apply ascii_cases.
  intros [] [] [] [] [] [] [] []; vm_compute; intuition congruence.
Qed.

Lemma all_chars_impl (p q : ascii -> bool) (s : string) :
  (forall c, p c = true -> q c = true) ->
  all_chars p s = true -> all_chars q s = true.
Proof.
  intros Hpq. induction s as [|c s IH]; [done|]. simpl.
  intros [Hc Hs]%andb_true_iff. by rewrite (Hpq c Hc), (IH Hs).
Qed.

Lemma two_digit_plain n :
  0 <= n < 100 -> all_chars is_plain (two_digit n) = true.
Proof.
  intros (a & b & -> & Ha & Hb)%two_digit_hours%proj1.
  unfold is_plain. simpl. by rewrite Ha, Hb.
Qed.

Lemma render_as_plain f t :
  fits f t -> all_chars is_plain (render_as f t) = true.
Proof.
  intros [Ht _]. unfold render_as. rewrite !all_chars_app.
  rewrite !two_digit_plain by (Z.div_mod_to_equations; lia).
  destruct (with_hours f), (hours_colon f), (minutes_colon f);
    rewrite ?two_digit_plain by (Z.div_mod_to_equations; lia); done.
Qed.

Lemma render_as_truthy f t : str_truthy (render_as f t) = true.
Proof.
  unfold render_as, two_digit, mark.
  by destruct (with_hours f), (hours_colon f).
Qed.

Lemma segment_text_separator s g :
  segment_text s g ->
  all_chars (fun c => negb (is_separator c)) s = false.
Proof.
  intros (t1 & w1 & sep & w2 & t2 & nl & h1 & m1 & s1 & h2 & m2 & s2 &
          -> & _ & _ & Hsep & _).
  rewrite !all_chars_app. simpl. rewrite Hsep. simpl.
  by rewrite !andb_false_r.
Qed.

(** A text written with digits and colons alone is not a segment. *)
Lemma plain_not_valid s :
  str_truthy s = true -> all_chars is_plain s = true ->
  is_valid_segment s = Ok false.
Proof.
  intros Hs Hp. unfold is_valid_segment. rewrite Hs. cbn [negb].
  rewrite segment_seconds_nomatch; [done|].
  intros [g Hg%segment_text_separator].
  rewrite (all_chars_impl is_plain) in Hg; [done| |done].
  intros c Hc. by rewrite (proj1 (plain_facts c Hc)).
Qed.

Lemma plain_free s (c : ascii) :
  is_plain c = false -> all_chars is_plain s = true -> free_of c s = true.
Proof.
  intros Hc. apply all_chars_impl. intros x Hx.
  destruct (Ascii.eqb_spec x c) as [->|]; [congruence|done].
Qed.

(** X15.  A segment whose two timestamps are separated by [;] is valid
    for [is_valid_segment], but it does not survive the file: [;] is also
    what joins the segments of a record in their cell, so the record
    comes back with the two timestamps as two segments, and neither of
    them is valid. *)
Theorem semicolon_segment_lost (f1 f2 : form) (a b : Z) :
  fits f1 a -> fits f2 b -> a <= b ->
  is_valid_segment (render_as f1 a +:+ String ";" (render_as f2 b))
    = Ok true /\
  f_segments (read_back (entry_of_segment
                (render_as f1 a +:+ String ";" (render_as f2 b))))
    = [render_as f1 a; render_as f2 b] /\
  is_valid_segment (render_as f1 a) = Ok false /\
  is_valid_segment (render_as f2 b) = Ok false.
Proof.
  intros H1 H2 Hab.
  pose proof (render_as_plain _ _ H1) as P1.
  pose proof (render_as_plain _ _ H2) as P2.
  split_and!.
  - unfold is_valid_segment.
    assert (str_truthy (render_as f1 a +:+ String ";" (render_as f2 b))
            = true) as ->.
    { pose proof (render_as_truthy f1 a) as Hne.
      by destruct (render_as f1 a). }
    cbn [negb].
    pose proof (segment_seconds_rendered f1 f2 a b EmptyString EmptyString
                  ";" H1 H2 eq_refl eq_refl eq_refl) as E.
    cbn [String.append] in E. rewrite E.
    by destruct (Z.ltb_spec b a); [lia|].
  - unfold read_back, entry_of_segment. cbn [f_segments String.concat].
    rewrite cell_read_fixed.
    + rewrite split_app by (by apply plain_free).
      rewrite split_free by (by apply plain_free). done.
    + rewrite free_of_app. rewrite (plain_free _ carriage_return) by done.
      change (free_of carriage_return (String ";" ?x))
        with (free_of carriage_return x).
      by rewrite (plain_free _ carriage_return).
  - apply plain_not_valid; [apply render_as_truthy|done].
  - apply plain_not_valid; [apply render_as_truthy|done].
Qed.

Lemma semicolon_segment_lost_witness :
  fits (Form false false true) 10 /\ fits (Form false false true) 20 /\
  is_valid_segment "00:10;00:20" = Ok true /\
  f_segments (read_back (entry_of_segment "00:10;00:20"))
    = ["00:10"; "00:20"] /\
  is_valid_segment "00:10" = Ok false /\
  is_valid_segment "00:20" = Ok false.
Proof.
  assert (H1 : fits (Form false false true) 10) by (split; [|intros _]; lia).
  assert (H2 : fits (Form false false true) 20) by (split; [|intros _]; lia).
  assert (H3 : 10 <= 20) by lia.
  exact (conj H1 (conj H2
           (semicolon_segment_lost (Form false false true)
              (Form false false true) 10 20 H1 H2 H3))).
Defined.

End SegmentsInFile.

(** ** The player that cannot start *)

Section PlayerExtras.

Import Player.

(** X16.  Whatever the system answers and however the body ends, every
    child that was spawned is sent [terminate]; but the sink is closed
    only by [__exit__], so when it was opened and the player then could
    not be spawned it is left open.  When [__enter__] fails the body does
    not run and the failure is what the statement raises. *)
Theorem with_player_balance (sys : answers) (file : string)
    (steps : list string) (outcome : option exn) :
  count (Spawned file) (fst (with_player sys file steps outcome)) =
    count TerminateSent (fst (with_player sys file steps outcome)) /\
  count SinkOpened (fst (with_player sys file steps outcome)) =
    (count SinkClosed (fst (with_player sys file steps outcome)) +
     (if devnull_opens sys && negb (vlc_spawns sys) then 1 else 0))%nat /\
  (devnull_opens sys && vlc_spawns sys = false ->
   is_Some (snd (with_player sys file steps outcome)) /\
   forall label,
     count (BodyStep label) (fst (with_player sys file steps outcome))
       = 0%nat).
Proof.
  unfold with_player, enter, exit, init.
  destruct (devnull_opens sys), (vlc_spawns sys);
    cbn [path devnull vlc fst snd app andb negb].
  - rewrite <- !app_assoc. cbn [app].
    change (?a :: ?b :: ?l) with ([a; b] ++ l).
    rewrite !count_app, !count_body by done.
    split_and!; [|reflexivity|done].
    unfold count. cbn [count_occ].
    repeat match goal with
           | |- context [event_eq_dec ?x ?y] =>
               destruct (event_eq_dec x y); try congruence
           end.
    reflexivity.
  - split_and!; [reflexivity..|]. intros _. split; [by eexists|done].
  - split_and!; [reflexivity..|]. intros _. split; [by eexists|done].
  - split_and!; [reflexivity..|]. intros _. split; [by eexists|done].
Qed.

End PlayerExtras.

(** ** The audio files under a directory *)

Section AudioFiles.

#[local] Arguments String.append !_ _ / : simpl nomatch.

Import Os.

Lemma tree_nested_ind (P : tree -> Prop) :
  (forall files dirs,
     (forall d sub, In (d, sub) dirs -> P sub) -> P (Tree files dirs)) ->
  P Closed ->
  forall t, P t.
Proof.
  intros H H0. fix IH 1. intros [files dirs|]; [|exact H0]. apply H.
  induction dirs as [|[n t] ds IHds]; intros d sub Hin.
  - destruct Hin.
  - destruct Hin as [E|Hin]; [|exact (IHds d sub Hin)].
    injection E as _ <-. apply IH.
Qed.

Lemma walk_eq files dirs top :
  walk (Tree files dirs) top =
    (top, map fst dirs, files) ::
    flat_map (fun '(d, sub) => walk sub (path_join top d)) dirs.
Proof.
  cbn [walk]. f_equal.
  induction dirs as [|[n t] ds IH]; cbn [flat_map]; [done|by rewrite IH].
Qed.

Lemma flat_map_flat_map {A B C} (f : A -> list B) (g : B -> list C)
    (l : list A) :
  flat_map g (flat_map f l) = flat_map (fun x => flat_map g (f x)) l.
Proof.
  induction l as [|x l IH]; [done|]. cbn [flat_map].
  by rewrite flat_map_app, IH.
Qed.

Lemma audio_files_eq files dirs top :
  audio_files (Tree files dirs) top =
    map (path_join top) files ++
    flat_map (fun '(d, sub) => audio_files sub (path_join top d)) dirs.
Proof.
  unfold audio_files. rewrite walk_eq. cbn [flat_map].
  f_equal. rewrite flat_map_flat_map. apply flat_map_ext. by intros [d sub].
Qed.



Lemma lower_app s t : lower (s +:+ t) = lower s +:+ lower t.
Proof. induction s as [|c s IH]; [done|]. simpl. by rewrite IH. Qed.

Lemma endswith_app pre suf : endswith (pre +:+ suf) suf = true.
Proof.
  induction pre as [|c pre IH].
  - destruct suf; simpl; rewrite ?String.eqb_refl, ?Ascii.eqb_refl; done.
  - cbn [String.append endswith]. rewrite IH. apply orb_true_r.
Qed.

Lemma endswith_split s suf :
  endswith s suf = true -> exists pre, s = pre +:+ suf.
Proof.
  induction s as [|c s IH]; cbn [endswith].
  - rewrite orb_false_r. intros ->%String.eqb_eq. by exists EmptyString.
  - intros [->%String.eqb_eq|[pre ->]%IH]%orb_true_iff.
    + by exists EmptyString.
    + by exists (String c pre).
Qed.

(** A text with a [/] in it is not a suffix without one. *)
Lemma eqb_across_slash x y suf :
  free_of "/" suf = true -> String.eqb (x +:+ String "/" y) suf = false.
Proof.
  intros H. apply String.eqb_neq. intros <-.
  rewrite free_of_app in H. apply andb_true_iff in H as [_ H]. done.
Qed.

Lemma endswith_across_slash x y suf :
  free_of "/" suf = true ->
  endswith (x +:+ String "/" y) suf = endswith y suf.
Proof.
  intros H. induction x as [|c x IH].
  - pose proof (eqb_across_slash EmptyString y suf H) as E.
    cbn [String.append endswith] in *. by rewrite E.
  - pose proof (eqb_across_slash (String c x) y suf H) as E.
    cbn [String.append endswith] in *. by rewrite E, IH.
Qed.

Lemma valid_audio_across_slash x y :
  valid_audio (x +:+ String "/" y) = valid_audio y.
Proof.
  unfold valid_audio, VALID_AUDIO. cbn [existsb]. rewrite lower_app.
  cbn [lower]. change (lower_char "/") with "/"%char.
  by rewrite endswith_across_slash.
Qed.

Lemma valid_audio_join root name :
  valid_audio (path_join root name) = valid_audio name.
Proof.
  unfold path_join. destruct (startswith name "/"); [done|].
  destruct root as [|c root]; [done|]. cbn [str_truthy negb orb].
  destruct (endswith (String c root) "/") eqn:E.
  - apply endswith_split in E as [pre ->].
    rewrite str_app_assoc. cbn [String.append].
    apply valid_audio_across_slash.
  - cbn [String.append]. change (String c (root +:+ String "/" name))
      with (String c root +:+ String "/" name).
    apply valid_audio_across_slash.
Qed.

(** X18.  Whether a path is kept depends on the name of the file alone,
    whatever the directory it is joined to: the test made on the joined
    path is the test on the name, and it holds exactly when the name,
    in lower case, ends with [.mp3]. *)
Theorem valid_audio_by_name (root name : string) :
  valid_audio (path_join root name) = valid_audio name /\
  (valid_audio name = true <-> exists stem, lower name = stem +:+ ".mp3").
Proof.
  split; [apply valid_audio_join|].
  unfold valid_audio, VALID_AUDIO. cbn [existsb]. rewrite orb_false_r.
  split; [apply endswith_split|]. intros [stem ->]. apply endswith_app.
Qed.

Lemma audio_files_located t : forall top p,
  In p (audio_files t top) <->
  exists dir name, located t top dir name /\ p = path_join dir name.
Proof.
  induction t as [files dirs IH|] using tree_nested_ind; intros top p.
  - rewrite audio_files_eq, in_app_iff, in_map_iff, in_flat_map. split.
    + intros [(name & <- & Hname)|([d sub] & Hd & Hp)].
      * exists top, name. split; [by constructor|done].
      * apply (IH d sub Hd) in Hp as (dir & name & Hloc & ->).
        exists dir, name. split; [|done]. by econstructor.
    + intros (dir & name & Hloc & ->). inversion Hloc; subst.
      * left. by exists name.
      * right. exists (d, sub). split; [done|]. apply (IH d sub); [done|].
        by exists dir, name.
  - split; [intros []|]. intros (dir & name & Hloc & _). inversion Hloc.
Qed.

(** X19.  What [list_audio_files] returns: exactly the joined paths of
    the files, at any depth under the path, whose name in lower case
    ends with [.mp3]; the names of the directories play no part. *)
Theorem list_audio_files_found (t : tree) (path p : string) :
  In p (list_audio_files t path) <->
  exists dir name,
    located t path dir name /\ valid_audio name = true /\
    p = path_join dir name.
Proof.
  unfold list_audio_files. rewrite List.filter_In, audio_files_located.
  split.
  - intros [(dir & name & Hloc & ->) Hp]. rewrite valid_audio_join in Hp.
    by exists dir, name.
  - intros (dir & name & Hloc & Hname & ->). rewrite valid_audio_join.
    split; [|done]. by exists dir, name.
Qed.

End AudioFiles.

(** ** The field limit of the reader *)

Section FieldLimit.

Import Csv.

#[local] Arguments String.append !_ _ / : simpl nomatch.
#[local] Arguments parse_add_char : simpl never.
#[local] Arguments within_limit : simpl never.

Ltac step :=
  repeat (progress (unfold set_state, parse_save_field, parse_process_char,
                      start_field, emit; simpl)).

Lemma parse_add_char_full r a :
  within_limit (field r +:+ String a EmptyString) = false ->
  parse_add_char r a = Raise LimitError.
Proof.
  unfold within_limit, parse_add_char. rewrite str_length_app. simpl.
  intros H%N.leb_gt.
  destruct (N.leb_spec field_limit (N.of_nat (String.length (field r))));
    [done|lia].
Qed.

Lemma within_limit_prefix x y :
  within_limit (x +:+ y) = true -> within_limit x = true.
Proof.
  unfold within_limit. rewrite str_length_app.
  intros H%N.leb_le. apply N.leb_le. lia.
Qed.

(** A quoted cell beyond the limit stops the reader. *)
Lemma records_overflow (c : string) : forall acc fs m rest,
  within_limit (acc +:+ c) = false ->
  within_limit acc = true ->
  records (Reader IN_QUOTED_FIELD acc fs) m
          (double_quotes c +:+ String dquote rest)
  = ([], Some LimitError).
Proof.
  induction c as [|a c IH]; intros acc fs m rest Hover Hacc.
  - rewrite str_app_nil_r in Hover. congruence.
  - rewrite <- str_app_snoc in Hover.
    destruct (within_limit (acc +:+ String a EmptyString)) eqn:Ha.
    + pose proof (parse_add_char_ok (Reader IN_QUOTED_FIELD acc fs) a
                    EmptyString Ha) as Hadd.
      pose proof (parse_add_char_ok (Reader QUOTE_IN_QUOTED_FIELD acc fs) a
                    EmptyString Ha) as Hadd'.
      simpl in Hadd, Hadd'.
      destruct (Ascii.eqb_spec a dquote) as [->|Hq].
      * step. rewrite Hadd'. step. by rewrite (IH _ fs true rest Hover Ha).
      * apply Ascii.eqb_neq in Hq. step. rewrite Hq. step. rewrite Hq, Hadd.
        destruct (Ascii.eqb a newline); step.
        -- by rewrite (IH _ fs false rest Hover Ha).
        -- by rewrite (IH _ fs true rest Hover Ha).
    + pose proof (parse_add_char_full (Reader IN_QUOTED_FIELD acc fs) a Ha)
        as Hadd.
      pose proof (parse_add_char_full (Reader QUOTE_IN_QUOTED_FIELD acc fs)
                    a Ha) as Hadd'.
      simpl in Hadd, Hadd'.
      destruct (Ascii.eqb_spec a dquote) as [->|Hq].
      * step. by rewrite Hadd'.
      * apply Ascii.eqb_neq in Hq. step. rewrite Hq. step.
        by rewrite Hq, Hadd.
Qed.

Lemma line_read_head c cs rest :
  exists tail,
    line_read (c :: cs) +:+ rest =
    String dquote (double_quotes c +:+ String dquote tail).
Proof.
  destruct cs as [|c2 cs]; eexists.
  - apply line_read_one.
  - apply line_read_cons.
Qed.

Lemma app_cons_shape {A} (pre : list A) (c : A) (post : list A) :
  exists x l, pre ++ c :: post = x :: l.
Proof. destruct pre; simpl; eauto. Qed.

(** A row that holds a cell beyond the limit, after cells within it. *)
Lemma records_row_overflow (pre : list string) : forall c post fs st m rest,
  st = START_RECORD \/ st = START_FIELD ->
  forallb within_limit pre = true ->
  within_limit c = false ->
  records (Reader st EmptyString fs) m (line_read (pre ++ c :: post) +:+ rest)
  = ([], Some LimitError).
Proof.
  induction pre as [|c1 pre IH]; intros c post fs st m rest Hst Hpre Hc.
  - cbn [app]. destruct (line_read_head c post rest) as [tail ->].
    destruct Hst as [->| ->]; step.
    all: by rewrite (records_overflow c EmptyString fs true tail Hc).
  - cbn [forallb] in Hpre. apply andb_true_iff in Hpre as [H1 Hpre].
    cbn [app]. destruct (app_cons_shape pre c post) as (c2 & cs & E).
    rewrite E, line_read_cons, <- E.
    destruct Hst as [->| ->]; step.
    all: rewrite (records_quoted c1 EmptyString fs true _ H1); step.
    all: by rewrite (IH c post (fs ++ [c1]) START_FIELD true rest
                       (or_intror eq_refl) Hpre Hc).
Qed.

Lemma concat_lines_app (l1 l2 : list string) :
  concat_lines (l1 ++ l2) = concat_lines l1 +:+ concat_lines l2.
Proof.
  induction l1 as [|x l1 IH]; [done|]. cbn [app concat_lines].
  by rewrite IH, str_app_assoc.
Qed.

(** The rows in front of what the reader goes on with. *)
Lemma records_lines_then (rows : list (list string)) (rest : string) :
  Forall (fun row => row <> [] /\ forallb within_limit row = true) rows ->
  records parse_reset false (concat_lines (map line_read rows) +:+ rest)
  = (rows ++ fst (records parse_reset false rest),
     snd (records parse_reset false rest)).
Proof.
  induction 1 as [|row rows [Hne Hlim] _ IH].
  - cbn [map concat_lines app String.append]. by destruct (records _ _ _).
  - destruct row as [|c1 cs]; [done|]. cbn [map concat_lines].
    rewrite str_app_assoc. unfold parse_reset at 1.
    rewrite (records_row cs c1 [] START_RECORD false _
               (or_introl eq_refl) Hlim).
    by rewrite IH.
Qed.

Lemma forallb_false_split {A} (p : A -> bool) (l : list A) :
  forallb p l = false ->
  exists pre c post, l = pre ++ c :: post /\
                     forallb p pre = true /\ p c = false.
Proof.
  induction l as [|x l IH]; [done|]. cbn [forallb].
  destruct (p x) eqn:Hx.
  - intros (pre & c & post & -> & Hpre & Hc)%IH.
    exists (x :: pre), c, post. cbn [forallb]. by rewrite Hx, Hpre.
  - intros _. by exists [], x, l.
Qed.

Lemma readable_read_back (r : entry) :
  readable (read_back r) =
  forallb within_limit (map cell_read (record_cells (to_dict r))).
Proof.
  rewrite record_cells_to_dict. unfold readable, read_back.
  cbn [f_filepath f_event_name f_title f_speakers f_segments map forallb].
  rewrite !concat_split, andb_true_r. by rewrite <- !andb_assoc.
Qed.

Lemma entry_rows (rs : list entry) :
  forallb readable rs = true ->
  Forall (fun row => row <> [] /\ forallb within_limit row = true)
         (map (map cell_read) (map record_cells (map to_dict rs))).
Proof.
  induction rs as [|r rs IH]; [constructor|]. cbn [forallb map].
  intros [Hr Hrs]%andb_true_iff. constructor; [|by apply IH].
  split; [by rewrite record_cells_to_dict|by apply readable_cells].
Qed.

(** X20.  A cell that is beyond the field limit of the reader once the
    file is read, 131072 characters, is written without complaint, but
    the file cannot be read back in full: [read_from_csv] loads the
    records in front of that one and then raises the error of the [csv]
    reader, so the records after it are lost as well. *)
Theorem read_from_csv_field_limit (self0 : MetadataList)
    (rs : list entry) (r : entry) (rest : list entry)
    (fs : filesystem) (path : string) :
  forallb readable rs = true ->
  readable (read_back r) = false ->
  fs !! path <> Some Directory ->
  snd (write_to_csv (map (fun r => Some (to_dict r)) (rs ++ r :: rest))
                    fs path) = None /\
  read_from_csv self0
    (fst (write_to_csv (map (fun r => Some (to_dict r)) (rs ++ r :: rest))
                       fs path)) path =
    (self0 ++ map (fun r => Some (to_dict (read_back r))) rs,
     Some LimitError).
Proof.
  intros Hrs Hr Hfs.
  pose proof (records_of_entries (rs ++ r :: rest)) as Hrec.
  assert (Hall : Forall complete
            (records_of (map (fun r => Some (to_dict r)) (rs ++ r :: rest))))
    by (rewrite Hrec; apply entries_complete).
  rewrite (write_to_csv_closed_form _ _ _ Hall Hfs), Hrec. cbn [fst snd].
  split; [done|].
  unfold read_from_csv, open_read. rewrite lookup_insert_eq.
  unfold rows_of, reader_rows. rewrite csv_text_rows, un_rows.
  rewrite !map_app. cbn [map]. rewrite !map_app. cbn [map].
  change (line_read (map cell_read KEYS) :: map line_read ?A ++ ?B)
    with (map line_read (map cell_read KEYS :: A) ++ B).
  rewrite concat_lines_app. cbn [concat_lines].
  rewrite readable_read_back in Hr.
  apply forallb_false_split in Hr as (pre & c & post & -> & Hpre & Hc).
  rewrite records_lines_then.
  - change parse_reset with (Reader START_RECORD EmptyString []).
    rewrite (records_row_overflow pre c post [] START_RECORD false _
               (or_introl eq_refl) Hpre Hc).
    cbn [fst snd]. rewrite app_nil_r.
    rewrite dict_rows_cells; [apply load_rows_cells|].
    clear. induction rs as [|r rs IH]; constructor; [|exact IH].
    by rewrite record_cells_to_dict.
  - constructor; [split; [done|by vm_compute]|by apply entry_rows].
Qed.

Lemma read_from_csv_field_limit_witness :
  forallb readable [split_entry] = true /\
  readable (read_back long_entry) = false /\
  (∅ : filesystem) !! "m.csv" <> Some Directory /\
  snd (write_to_csv
         (map (fun r => Some (to_dict r))
              ([split_entry] ++ long_entry :: [joint_entry]))
         ∅ "m.csv") = None /\
  read_from_csv []
    (fst (write_to_csv
            (map (fun r => Some (to_dict r))
                 ([split_entry] ++ long_entry :: [joint_entry]))
            ∅ "m.csv")) "m.csv" =
    ([] ++ map (fun r => Some (to_dict (read_back r))) [split_entry],
     Some LimitError).
Proof.
  assert (H1 : forallb readable [split_entry] = true)
    by (vm_compute; reflexivity).
  assert (H2 : readable (read_back long_entry) = false)
    by (vm_compute; reflexivity).
  assert (H3 : (∅ : filesystem) !! "m.csv" <> Some Directory)
    by decide_by_compute.
  exact (conj H1 (conj H2 (conj H3
           (read_from_csv_field_limit [] [split_entry] long_entry
              [joint_entry] ∅ "m.csv" H1 H2 H3)))).
Defined.

End FieldLimit.
